(** * RelayNode [utils.cpp]: varint codec, double SHA-256 and message framing

    A shallow embedding of the byte-level routines of [c++/utils.cpp]:
    [move_forward], [read_varint], [varint], [prepare_message], [WriteBE32],
    [WriteBE64], [sha256_init], [sha256_done], [double_sha256] and
    [double_sha256_two_32_inputs].

    Conventions.
    - An [unsigned char] is a [byte]; a buffer is a [list byte]; integer values
      are [Z], every conversion to a fixed-width C type written out
      ([to_uint8] ... [to_uint64], [to_int]).
    - A [std::vector<unsigned char>::const_iterator] is the address it points
      at (a [Z] below [2^64]); the elements of a vector lie in memory from
      the address of its first element on, and a vector without storage has
      the null address for [begin()] and [end()].
    - [read_varint] takes its iterator by reference and leaves by [throw]:
      it is a function from the iterator before the call to an outcome
      together with the iterator after the call, so that what a thrown
      exception leaves in the caller's iterator is part of the model.  A read
      through an iterator that points at no element is the outcome
      [Undefined].
    - Routines that write through raw pointers run in [run]: [Fault
      OutOfBounds] stands for an access outside the object pointed into
      (undefined behaviour in C++), [Fault AssertionFailed] for [do_assert]
      ending the process. *)

From Stdlib Require Import ZArith List Lia Bool.
From Stdlib Require Import Init.Byte Strings.Byte.
Import ListNotations.
Local Open Scope Z_scope.

(** ** Fixed-width integers *)

Definition to_uint8 (z : Z) : Z := z mod 2 ^ 8.
Definition to_uint16 (z : Z) : Z := z mod 2 ^ 16.
Definition to_uint32 (z : Z) : Z := z mod 2 ^ 32.
Definition to_uint64 (z : Z) : Z := z mod 2 ^ 64.

(** [int] is 32 bits wide, two's complement. *)
Definition to_int (z : Z) : Z := (z + 2 ^ 31) mod 2 ^ 32 - 2 ^ 31.

(** [a << n] on operands of type [int], and on operands of type [uint64_t].
    A result outside [int] wraps to two's complement: what C++20 defines and
    what compilers for the earlier standards produce. *)
Definition int_shl (a n : Z) : Z := to_int (Z.shiftl a n).
Definition uint64_shl (a n : Z) : Z := to_uint64 (Z.shiftl a n).

(** ** Bytes *)

Definition byte_val (b : byte) : Z := Z.of_N (Byte.to_N b).

(** Conversion of an integer to [unsigned char]. *)
Definition byte_of (z : Z) : byte :=
  match Byte.of_N (Z.to_N (to_uint8 z)) with
  | Some b => b
  | None => x00
  end.

(** The [n] low-order bytes of [x], least significant first. *)
Fixpoint le_bytes (n : nat) (x : Z) : list byte :=
  match n with
  | O => []
  | S n' => byte_of x :: le_bytes n' (Z.shiftr x 8)
  end.

(** The unsigned integer a byte sequence spells, least significant first. *)
Fixpoint le_value (bs : list byte) : Z :=
  match bs with
  | [] => 0
  | b :: bs' => byte_val b + 2 ^ 8 * le_value bs'
  end.

Definition be_bytes (n : nat) (x : Z) : list byte := rev (le_bytes n x).
Definition be_value (bs : list byte) : Z := le_value (rev bs).

(** ** Byte order of the host

    [htole16], [htole32] and [htole64] are the identity on a little-endian
    host and a byte swap on a big-endian one; the bytes of an integer object
    in memory are in the host's order. *)

Inductive endianness : Type := LittleEndian | BigEndian.

Definition bswap (n : nat) (x : Z) : Z := be_value (le_bytes n x).

Definition htole (host : endianness) (n : nat) (x : Z) : Z :=
  match host with
  | LittleEndian => x
  | BigEndian => bswap n x
  end.

(** Object representation of an [n]-byte unsigned integer holding [x]. *)
Definition object_bytes (host : endianness) (n : nat) (x : Z) : list byte :=
  match host with
  | LittleEndian => le_bytes n x
  | BigEndian => be_bytes n x
  end.

(** ** Varint processing *)

Inductive exn : Type := read_exception.

(** How a routine over iterators ends: it returns, it throws, or it reads
    through an iterator that does not point at an element of the vector,
    which C++ leaves undefined (at the null address the process is ended). *)
Inductive outcome (A : Type) : Type :=
| Returned (a : A)
| Thrown (e : exn)
| Undefined.
Arguments Returned {A} a.
Arguments Thrown {A} e.
Arguments Undefined {A}.

(** A computation over the caller's iterator: the iterator survives a throw. *)
Definition cursor (A : Type) : Type := Z -> outcome A * Z.

Definition ret {A} (a : A) : cursor A := fun it => (Returned a, it).
Definition throw {A} (e : exn) : cursor A := fun it => (Thrown e, it).
Definition get_it : cursor Z := fun it => (Returned it, it).
Definition bind {A B} (m : cursor A) (f : A -> cursor B) : cursor B :=
  fun it =>
    match m it with
    | (Returned a, it') => f a it'
    | (Thrown e, it') => (Thrown e, it')
    | (Undefined, it') => (Undefined, it')
    end.

Declare Scope cursor_scope.
Delimit Scope cursor_scope with cursor.
Notation "x <- m ;; k" := (bind m (fun x => k))
  (at level 61, m at next level, right associativity) : cursor_scope.
Notation "m ;; k" := (bind m (fun _ => k))
  (at level 61, right associativity) : cursor_scope.

(** [ptrdiff_t], the [difference_type] of the iterators: 64 bits, two's
    complement.  The [size_t] argument of [move_forward] is converted to it
    by [end-i] and by [std::advance]. *)
Definition to_ptrdiff (z : Z) : Z := (z + 2 ^ 63) mod 2 ^ 64 - 2 ^ 63.

(** [p + n] on an iterator: arithmetic on the 64-bit address.  Where the
    result leaves the storage of the vector C++ leaves it undefined; the
    compilers of the 64-bit targets add the addresses, and the sum wraps. *)
Definition ptr_add (p n : Z) : Z := to_uint64 (p + n).

Definition advance (n : Z) : cursor unit := fun it => (Returned tt, ptr_add it n).

(** The element of [v] at index [p]. *)
Definition deref (v : list byte) (p : Z) : Z := byte_val (nth (Z.to_nat p) v x00).

(** [*p] for an iterator [p] into the vector whose elements [v] lie in memory
    from the address [base] on. *)
Definition load (base : Z) (v : list byte) (p : Z) : cursor Z :=
  fun it =>
    if (base <=? p) && (p <? base + Z.of_nat (length v))
    then (Returned (deref v (p - base)), it)
    else (Undefined, it).

(** <<
    if (it > end-i) throw read_exception();
    std::advance(it, i);
    >>
    The iterators are compared by their addresses.  When [end] is an address
    below [i], as it is for a vector without storage, whose [begin()] and
    [end()] are null, [end-i] wraps to the top of the address space and
    nothing is thrown. *)
Definition move_forward (i end_ : Z) : cursor unit :=
  (it <- get_it ;;
   let n := to_ptrdiff i in
   if it >? ptr_add end_ (- n) then throw read_exception else advance n)%cursor.

(** The elements [v] of the vector lie from the address [base] on; [end_]
    and the iterator are addresses.  The operands of [<<] and [|] in the
    [0xfd] and [0xfe] branches are [unsigned char] promoted to [int]; the
    [int] result is converted to the [uint64_t] return type.  The [0xff]
    branch converts every byte to [uint64_t] first. *)
Definition read_varint (base : Z) (v : list byte) (end_ : Z) : cursor Z :=
  (move_forward 1 end_ ;;
   it <- get_it ;;
   b <- load base v (ptr_add it (-1)) ;;
   let first := to_uint8 b in
   if first <? 0xfd then ret first
   else if first =? 0xfd then
     move_forward 2 end_ ;;
     it <- get_it ;;
     b1 <- load base v (ptr_add it (-1)) ;;
     b2 <- load base v (ptr_add it (-2)) ;;
     ret (to_uint64 (Z.lor (int_shl b1 8) b2))
   else if first =? 0xfe then
     move_forward 4 end_ ;;
     it <- get_it ;;
     b1 <- load base v (ptr_add it (-1)) ;;
     b2 <- load base v (ptr_add it (-2)) ;;
     b3 <- load base v (ptr_add it (-3)) ;;
     b4 <- load base v (ptr_add it (-4)) ;;
     ret (to_uint64
            (Z.lor (Z.lor (Z.lor (int_shl b1 24) (int_shl b2 16)) (int_shl b3 8)) b4))
   else
     move_forward 8 end_ ;;
     it <- get_it ;;
     b1 <- load base v (ptr_add it (-1)) ;;
     b2 <- load base v (ptr_add it (-2)) ;;
     b3 <- load base v (ptr_add it (-3)) ;;
     b4 <- load base v (ptr_add it (-4)) ;;
     b5 <- load base v (ptr_add it (-5)) ;;
     b6 <- load base v (ptr_add it (-6)) ;;
     b7 <- load base v (ptr_add it (-7)) ;;
     b8 <- load base v (ptr_add it (-8)) ;;
     ret (Z.lor (Z.lor (Z.lor (Z.lor (Z.lor (Z.lor (Z.lor
            (uint64_shl (to_uint64 b1) 56)
            (uint64_shl (to_uint64 b2) 48))
            (uint64_shl (to_uint64 b3) 40))
            (uint64_shl (to_uint64 b4) 32))
            (uint64_shl (to_uint64 b5) 24))
            (uint64_shl (to_uint64 b6) 16))
            (uint64_shl (to_uint64 b7) 8))
            (to_uint64 b8)))%cursor.

(** Decoding a whole vector from its beginning, as a caller does with
    [v.begin()] and [v.end()]. *)
Definition decode (base : Z) (v : list byte) : outcome Z * Z :=
  read_varint base v (base + Z.of_nat (length v)) base.

(** [std::vector<unsigned char> varint(uint32_t size)]: the argument is
    converted to the 32-bit parameter on entry. *)
Definition varint (host : endianness) (arg : Z) : list byte :=
  let size := to_uint32 arg in
  if size <? 0xfd then
    let lesize := to_uint8 size in
    object_bytes host 1 lesize
  else if size <=? 0xffff then
    let lesize := htole host 2 (to_uint16 size) in
    [byte_of 0xfd] ++ object_bytes host 2 lesize
  else if size <=? 0xffffffff then
    let lesize := htole host 4 (to_uint32 size) in
    [byte_of 0xfe] ++ object_bytes host 4 lesize
  else
    let lesize := htole host 8 (to_uint64 size) in
    [byte_of 0xff] ++ object_bytes host 8 lesize.

(** ** Raw memory: buffers written through pointers *)

Inductive fault : Type := OutOfBounds | AssertionFailed.

Inductive run (A : Type) : Type :=
| Done (a : A)
| Fault (f : fault).
Arguments Done {A} a.
Arguments Fault {A} f.

Definition run_bind {A B} (m : run A) (f : A -> run B) : run B :=
  match m with
  | Done a => f a
  | Fault e => Fault e
  end.

Declare Scope run_scope.
Delimit Scope run_scope with run.
Notation "x <- m ;; k" := (run_bind m (fun x => k))
  (at level 61, m at next level, right associativity) : run_scope.
Notation "m ;; k" := (run_bind m (fun _ => k))
  (at level 61, right associativity) : run_scope.

Definition len (buf : list byte) : Z := Z.of_nat (length buf).

Definition in_bounds (buf : list byte) (off n : Z) : bool :=
  (0 <=? off) && (0 <=? n) && (off + n <=? len buf).

(** The [n] bytes of [buf] from offset [off]. *)
Definition read (buf : list byte) (off n : Z) : run (list byte) :=
  if in_bounds buf off n
  then Done (firstn (Z.to_nat n) (skipn (Z.to_nat off) buf))
  else Fault OutOfBounds.

(** [buf] with [bs] in place of the bytes from position [o] on. *)
Definition splice (buf : list byte) (o : nat) (bs : list byte) : list byte :=
  firstn o buf ++ bs ++ skipn (o + length bs) buf.

(** [buf] with the bytes [bs] written from offset [off] on. *)
Definition write (buf : list byte) (off : Z) (bs : list byte) : run (list byte) :=
  if in_bounds buf off (len bs)
  then Done (splice buf (Z.to_nat off) bs)
  else Fault OutOfBounds.

(** [buf[off] = b]. *)
Definition store (buf : list byte) (off : Z) (b : byte) : run (list byte) :=
  write buf off [b].

Definition memset (buf : list byte) (off : Z) (c : byte) (n : Z) : run (list byte) :=
  write buf off (repeat c (Z.to_nat n)).

Definition memcpy (dst : list byte) (doff : Z) (src : list byte) (n : Z) : run (list byte) :=
  (bs <- read src 0 n ;; write dst doff bs)%run.

Definition assert (flag : bool) : run unit :=
  if flag then Done tt else Fault AssertionFailed.

(** A C string: the characters before the first NUL of the memory [s]. *)
Fixpoint c_str (s : list byte) : list byte :=
  match s with
  | [] => []
  | c :: s' => if Byte.eqb c x00 then [] else c :: c_str s'
  end.

Definition strlen (s : list byte) : Z := len (c_str s).

(** [strcpy(dst + off, src)]: the characters and the terminating NUL, however
    many they are. *)
Definition strcpy (dst : list byte) (off : Z) (src : list byte) : run (list byte) :=
  write dst off (c_str src ++ [x00]).

(** ** Random stuff: big-endian stores and the SHA-256 state *)

(** <<
    ptr[0] = x >> 56; ptr[1] = x >> 48; ... ptr[7] = x;
    >> *)
Definition WriteBE64 (buf : list byte) (ptr : Z) (x : Z) : run (list byte) :=
  (buf <- store buf ptr (byte_of (Z.shiftr x 56)) ;;
   buf <- store buf (ptr + 1) (byte_of (Z.shiftr x 48)) ;;
   buf <- store buf (ptr + 2) (byte_of (Z.shiftr x 40)) ;;
   buf <- store buf (ptr + 3) (byte_of (Z.shiftr x 32)) ;;
   buf <- store buf (ptr + 4) (byte_of (Z.shiftr x 24)) ;;
   buf <- store buf (ptr + 5) (byte_of (Z.shiftr x 16)) ;;
   buf <- store buf (ptr + 6) (byte_of (Z.shiftr x 8)) ;;
   store buf (ptr + 7) (byte_of x))%run.

Definition WriteBE32 (buf : list byte) (ptr : Z) (x : Z) : run (list byte) :=
  (buf <- store buf ptr (byte_of (Z.shiftr x 24)) ;;
   buf <- store buf (ptr + 1) (byte_of (Z.shiftr x 16)) ;;
   buf <- store buf (ptr + 2) (byte_of (Z.shiftr x 8)) ;;
   store buf (ptr + 3) (byte_of x))%run.

(** [uint32_t state[8]]. *)
Definition sha_state : Type := list Z.

Definition word (state : sha_state) (i : nat) : Z := nth i state 0.

Definition sha256_init : sha_state :=
  [0x6a09e667; 0xbb67ae85; 0x3c6ef372; 0xa54ff53a;
   0x510e527f; 0x9b05688c; 0x1f83d9ab; 0x5be0cd19].

Definition sha256_done (buf : list byte) (res : Z) (state : sha_state) : run (list byte) :=
  (buf <- WriteBE32 buf res (word state 0) ;;
   buf <- WriteBE32 buf (res + 4) (word state 1) ;;
   buf <- WriteBE32 buf (res + 8) (word state 2) ;;
   buf <- WriteBE32 buf (res + 12) (word state 3) ;;
   buf <- WriteBE32 buf (res + 16) (word state 4) ;;
   buf <- WriteBE32 buf (res + 20) (word state 5) ;;
   buf <- WriteBE32 buf (res + 24) (word state 6) ;;
   WriteBE32 buf (res + 28) (word state 7))%run.

(** The 32 bytes [sha256_done] stores: each state word, most significant
    byte first. *)
Definition digest_bytes (state : sha_state) : list byte :=
  be_bytes 4 (word state 0) ++ be_bytes 4 (word state 1) ++
  be_bytes 4 (word state 2) ++ be_bytes 4 (word state 3) ++
  be_bytes 4 (word state 4) ++ be_bytes 4 (word state 5) ++
  be_bytes 4 (word state 6) ++ be_bytes 4 (word state 7).

(** [std::vector<unsigned char> data(n)]: [n] value-initialised bytes. *)
Definition vector (n : Z) : list byte := repeat x00 (Z.to_nat n).

(** [std::vector<unsigned char>::max_size()], [PTRDIFF_MAX] on the 64-bit
    targets: no vector and no array holds more bytes. *)
Definition max_size : Z := 2 ^ 63 - 1.

(** <<
    uint64_t pad_count = 1 + ((119 - (byte_count % 64)) % 64);
    >> *)
Definition pad_count (byte_count : Z) : Z :=
  to_uint64 (1 + to_uint64 (119 - byte_count mod 64) mod 64).

(** [byte_count + pad_count + 8], a [uint64_t]. *)
Definition padded_size (byte_count : Z) : Z :=
  to_uint64 (to_uint64 (byte_count + pad_count byte_count) + 8).

(** The first-pass buffer of the raw path of [double_sha256], lines
    <<
    std::vector<unsigned char> data(byte_count + pad_count + 8);
    memcpy(&data[0], input, byte_count);
    data[byte_count] = 0x80;
    memset(&data[byte_count+1], 0, pad_count-1);
    WriteBE64(&data[byte_count + pad_count], byte_count << 3);
    >> *)
Definition first_pass_data (input : list byte) (byte_count : Z) : run (list byte) :=
  (let data := vector (padded_size byte_count) in
   data <- memcpy data 0 input byte_count ;;
   data <- store data byte_count (byte_of 0x80) ;;
   data <- memset data (to_uint64 (byte_count + 1)) x00 (to_uint64 (pad_count byte_count - 1)) ;;
   WriteBE64 data (to_uint64 (byte_count + pad_count byte_count)) (uint64_shl byte_count 3))%run.

(** The second-pass block, built in place over the first 64 bytes of [data]:
    <<
    sha256_done(&data[0], state);
    data[32] = 0x80;
    memset(&data[32 + 1], 0, 32 - 8 - 1);
    WriteBE64(&data[64 - 8], 32 << 3);
    >> *)
Definition second_pass_data (data : list byte) (state : sha_state) : run (list byte) :=
  (data <- sha256_done data 0 state ;;
   data <- store data 32 (byte_of 0x80) ;;
   data <- memset data (32 + 1) x00 (32 - 8 - 1) ;;
   WriteBE64 data (64 - 8) (Z.shiftl 32 3))%run.

(** The block pair the fast path builds in [unsigned char data[128]], whose
    bytes before the writes are indeterminate ([data0]):
    <<
    memcpy(data,      input,  32);
    memcpy(data + 32, input2, 32);
    data[64] = 0x80;
    memset(data + 64 + 1, 0, 64 - 8 - 1);
    WriteBE64(data + 128 - 8, 64 << 3);
    >> *)
Definition two_inputs_data (data0 input input2 : list byte) : run (list byte) :=
  (data <- memcpy data0 0 input 32 ;;
   data <- memcpy data 32 input2 32 ;;
   data <- store data 64 (byte_of 0x80) ;;
   data <- memset data (64 + 1) x00 (64 - 8 - 1) ;;
   WriteBE64 data (128 - 8) (Z.shiftl 64 3))%run.

(** Which branch of [#ifndef SHA256] the file is compiled with: the [CSHA256]
    hash object, or the raw block routine the macro [SHA256] names. *)
Inductive config : Type := GenericHash | RawCompress.

(** Modelled from the spec: the layout of [struct bitcoin_msg_header], which
    is declared in [utils.h], not among the sources.  The wire-format table
    gives magic at offset 0 (4 bytes), command at 4 (12 bytes), length at 16
    (4 bytes), checksum at 20 (4 bytes), 24 bytes in all. *)
Definition offsetof_magic : Z := 0.
Definition offsetof_command : Z := 4.
Definition sizeof_command : Z := 12.
Definition offsetof_length : Z := 16.
Definition offsetof_checksum : Z := 20.
Definition sizeof_checksum : Z := 4.
Definition sizeof_header : Z := 24.

(** The fields of the header at the start of a buffer. *)
Definition field (off size : Z) (buf : list byte) : list byte :=
  firstn (Z.to_nat size) (skipn (Z.to_nat off) buf).
Definition field_magic : list byte -> list byte := field offsetof_magic 4.
Definition field_command : list byte -> list byte := field offsetof_command sizeof_command.
Definition field_length : list byte -> list byte := field offsetof_length 4.
Definition field_checksum : list byte -> list byte := field offsetof_checksum sizeof_checksum.

(** A run that ends without a result only does so by an access outside a
    buffer: no failure is reported. *)
Definition reports_no_failure {A} (m : run A) : Prop :=
  forall f, m = Fault f -> f = OutOfBounds.

(** ** Random stuff: printing a hash *)

(** The characters of ["0123456789abcdef"]. *)
Definition hex_digit (n : Z) : byte :=
  nth (Z.to_nat n)
      [x30; x31; x32; x33; x34; x35; x36; x37; x38; x39; x61; x62; x63; x64; x65; x66]
      x30.

(** What [printf("%02x", v)] writes for [v] below 256, which is every value
    of an [unsigned char] argument: two lowercase hexadecimal digits. *)
Definition printf_02x (v : Z) : list byte := [hex_digit (v / 16); hex_digit (v mod 16)].

(** <<
    for (int i = 31; i >= 0; i--)
        printf("%02x", hash[i]);
    >>
    [n] is [i + 1]; the result is what has been written to [stdout]. *)
Fixpoint print_hash_loop (hash : list byte) (n : nat) : list byte :=
  match n with
  | O => []
  | S i => printf_02x (deref hash (Z.of_nat i)) ++ print_hash_loop hash i
  end.

Definition print_hash (hash : list byte) : run (list byte) :=
  if in_bounds hash 0 32 then Done (print_hash_loop hash 32) else Fault OutOfBounds.

(** Reading hexadecimal back, to say what [print_hash] has written: the
    value of a digit, and the bytes spelled by pairs of digits. *)
Definition hex_value (c : byte) : Z :=
  let v := byte_val c in
  if (0x30 <=? v) && (v <=? 0x39) then v - 0x30
  else if (0x61 <=? v) && (v <=? 0x66) then v - 0x61 + 10
  else 0.

Fixpoint parse_hex (s : list byte) : list byte :=
  match s with
  | hi :: lo :: s' => byte_of (16 * hex_value hi + hex_value lo) :: parse_hex s'
  | _ => []
  end.

(** ** Network utils: transferring a whole buffer *)

Module Net.

(** [ssize_t] is 64 bits wide, two's complement; [size_t] is [to_uint64]. *)
Definition to_ssize_t (z : Z) : Z := (z + 2 ^ 63) mod 2 ^ 64 - 2 ^ 63.

(** One call of [read] or [send] as the loops make it: the offset into [buf]
    it was given, the number of bytes it was asked for, and what it
    returned. *)
Record call : Type := { call_offset : Z; call_size : Z; call_count : Z }.

(** The variables of the loop, the world after the calls made so far, and
    the calls themselves, oldest first. *)
Record transfer (W : Type) : Type :=
  { t_total : Z; t_count : Z; t_world : W; t_calls : list call }.
Arguments t_total {W} t.
Arguments t_count {W} t.
Arguments t_world {W} t.
Arguments t_calls {W} t.

Section Transfer.

Variable W : Type.

(** [read(filedes, buf + off, n)], or [send(filedes, buf + off, n,
    MSG_NOSIGNAL)]: which count it returns, and the world it leaves, is the
    system's business. *)
Variable syscall : W -> Z -> Z -> Z * W.

(** <<
    while (total < nbyte && (count = read(filedes, buf + total, nbyte-total)) > 0)
        total += count;
    >>
    [fuel] bounds the number of iterations. *)
Fixpoint transfer_loop (fuel : nat) (nbyte : Z) (s : transfer W) : option (transfer W) :=
  match fuel with
  | O => None
  | S fuel' =>
      if t_total s <? nbyte then
        let size := to_uint64 (nbyte - t_total s) in
        let (count, w) := syscall (t_world s) (t_total s) size in
        let calls := t_calls s ++ [{| call_offset := t_total s; call_size := size;
                                      call_count := count |}] in
        if count >? 0 then
          transfer_loop fuel' nbyte
            {| t_total := to_uint64 (t_total s + count); t_count := count;
               t_world := w; t_calls := calls |}
        else
          Some {| t_total := t_total s; t_count := count; t_world := w; t_calls := calls |}
      else Some s
  end.

(** <<
    if (count <= 0) return count; else return total;
    >> *)
Definition transfer_result (s : transfer W) : Z * W * list call :=
  (if t_count s <=? 0 then t_count s else to_ssize_t (t_total s), t_world s, t_calls s).

Definition transfer_start (w : W) : transfer W :=
  {| t_total := 0; t_count := 0; t_world := w; t_calls := [] |}.

(** The result, the world left, and the calls made. *)
Definition read_all (fuel : nat) (w : W) (nbyte : Z) : option (Z * W * list call) :=
  if nbyte <=? 0 then Some (0, w, [])
  else option_map transfer_result (transfer_loop fuel nbyte (transfer_start w)).

Definition send_all (fuel : nat) (w : W) (nbyte : Z) : option (Z * W * list call) :=
  option_map transfer_result (transfer_loop fuel nbyte (transfer_start w)).

End Transfer.

Arguments read_all {W} syscall fuel w nbyte.
Arguments send_all {W} syscall fuel w nbyte.
Arguments transfer_loop {W} syscall fuel nbyte s.

(** The counts returned by a sequence of calls, added up. *)
Definition transferred (calls : list call) : Z :=
  fold_right (fun c n => call_count c + n) 0 calls.

(** Each call is made at the offset the calls before it have reached. *)
Fixpoint contiguous (start : Z) (calls : list call) : Prop :=
  match calls with
  | [] => True
  | c :: cs => call_offset c = start /\ contiguous (start + call_count c) cs
  end.

(** What a caller can rely on after a transfer of [nbyte] bytes started in
    the world [w]: every call asked for all that was still missing, at the
    offset reached so far; and either the result is [nbyte], every call
    returned a positive count and the counts add up to [nbyte], or the result
    is the zero or negative count of the last call, whatever the calls before
    it had transferred. *)
Definition whole_or_nothing {W} (nbyte : Z) (w : W) (r : Z * W * list call) : Prop :=
  let '(ret, w', calls) := r in
  Forall (fun c => 0 <= call_offset c /\ 0 < call_size c
                   /\ call_offset c + call_size c = nbyte) calls /\
  contiguous 0 calls /\
  ((ret = nbyte /\ Forall (fun c => 0 < call_count c) calls /\ transferred calls = nbyte)
   \/ (ret <= 0 /\ 0 < nbyte /\
       exists earlier last,
         calls = earlier ++ [last] /\ call_count last = ret /\
         Forall (fun c => 0 < call_count c) earlier /\
         transferred earlier < nbyte)) /\
  (nbyte = 0 -> calls = [] /\ w' = w).

(** The system never reports more bytes than it was asked for. *)
Definition bounded {W} (syscall : W -> Z -> Z -> Z * W) : Prop :=
  forall w off n, 0 < n -> fst (syscall w off n) <= n.

(** What holds of the loop's variables each time its condition is tested,
    in a transfer of [nbyte] bytes started in the world [w0]. *)
Definition transfer_inv {W} (nbyte : Z) (w0 : W) (s : transfer W) : Prop :=
  0 <= t_total s <= nbyte /\
  t_total s = transferred (t_calls s) /\
  Forall (fun c => 0 < call_count c) (t_calls s) /\
  Forall (fun c => 0 <= call_offset c /\ 0 < call_size c
                   /\ call_offset c + call_size c = nbyte) (t_calls s) /\
  contiguous 0 (t_calls s) /\
  (t_calls s = [] -> t_count s = 0 /\ t_world s = w0) /\
  (t_calls s <> [] -> 0 < t_count s).

End Net.

(** ** Reference instances of the routines the file links against

    The block routine named by the macro [SHA256] and the class [CSHA256] of
    [crypto/sha2.h] are not among the sources.  The properties below are
    stated for arbitrary routines; the instances here serve to run the model
    on concrete inputs. *)

(** Modelled from the spec: the round constants of standard SHA-256, the
    first 32 bits of the fractional parts of the cube roots of the first 64
    primes (the first one is [0x428a2f98]). *)
Definition K256 : list Z :=
  [1116352408; 1899447441; 3049323471; 3921009573; 961987163; 1508970993;
   2453635748; 2870763221; 3624381080; 310598401; 607225278; 1426881987;
   1925078388; 2162078206; 2614888103; 3248222580; 3835390401; 4022224774;
   264347078; 604807628; 770255983; 1249150122; 1555081692; 1996064986;
   2554220882; 2821834349; 2952996808; 3210313671; 3336571891; 3584528711;
   113926993; 338241895; 666307205; 773529912; 1294757372; 1396182291;
   1695183700; 1986661051; 2177026350; 2456956037; 2730485921; 2820302411;
   3259730800; 3345764771; 3516065817; 3600352804; 4094571909; 275423344;
   430227734; 506948616; 659060556; 883997877; 958139571; 1322822218;
   1537002063; 1747873779; 1955562222; 2024104815; 2227730452; 2361852424;
   2428436474; 2756734187; 3204031479; 3329325298].

Definition rotr32 (n x : Z) : Z :=
  Z.lor (Z.shiftr x n) (to_uint32 (Z.shiftl x (32 - n))).
Definition Ch (x y z : Z) : Z :=
  Z.lxor (Z.land x y) (Z.land (to_uint32 (Z.lnot x)) z).
Definition Maj (x y z : Z) : Z :=
  Z.lxor (Z.lxor (Z.land x y) (Z.land x z)) (Z.land y z).
Definition Sigma0 (x : Z) : Z := Z.lxor (Z.lxor (rotr32 2 x) (rotr32 13 x)) (rotr32 22 x).
Definition Sigma1 (x : Z) : Z := Z.lxor (Z.lxor (rotr32 6 x) (rotr32 11 x)) (rotr32 25 x).
Definition sigma0 (x : Z) : Z := Z.lxor (Z.lxor (rotr32 7 x) (rotr32 18 x)) (Z.shiftr x 3).
Definition sigma1 (x : Z) : Z := Z.lxor (Z.lxor (rotr32 17 x) (rotr32 19 x)) (Z.shiftr x 10).

(** The big-endian 32-bit words of a byte sequence. *)
Fixpoint be_words (n : nat) (bs : list byte) : list Z :=
  match n with
  | O => []
  | S n' => be_value (firstn 4 bs) :: be_words n' (skipn 4 bs)
  end.

(** One more word of the message schedule, from the words before it. *)
Definition schedule_step (w : list Z) : list Z :=
  let t := length w in
  w ++ [to_uint32 (sigma1 (nth (t - 2) w 0) + nth (t - 7) w 0
                   + sigma0 (nth (t - 15) w 0) + nth (t - 16) w 0)].

Definition schedule (block : list byte) : list Z :=
  Nat.iter 48 schedule_step (be_words 16 block).

Definition sha_round (st : sha_state) (kw : Z * Z) : sha_state :=
  match st with
  | [a; b; c; d; e; f; g; h] =>
      let t1 := h + Sigma1 e + Ch e f g + fst kw + snd kw in
      let t2 := Sigma0 a + Maj a b c in
      [to_uint32 (t1 + t2); a; b; c; to_uint32 (d + t1); e; f; g]
  | _ => st
  end.

Definition sha256_block (st : sha_state) (block : list byte) : sha_state :=
  map (fun p => to_uint32 (fst p + snd p))
      (combine st (fold_left sha_round (combine K256 (schedule block)) st)).

Fixpoint sha256_blocks (n : nat) (data : list byte) (st : sha_state) : sha_state :=
  match n with
  | O => st
  | S n' => sha256_blocks n' (skipn 64 data) (sha256_block st (firstn 64 data))
  end.

(** Modelled from the spec: the block routine [SHA256] as the compression of
    standard SHA-256, [n] blocks of [data] folded into [st]. *)
Definition SHA256_ref (data : list byte) (st : sha_state) (n : Z) : sha_state :=
  sha256_blocks (Z.to_nat n) data st.

(** Modelled from the spec: standard SHA-256 of a whole message, with its
    padding, for the class [CSHA256]. *)
Definition sha256_ref (msg : list byte) : list byte :=
  let zeros := Z.to_nat ((55 - len msg) mod 64) in
  let data := msg ++ [byte_of 0x80] ++ repeat x00 zeros ++ be_bytes 8 (8 * len msg) in
  concat (map (be_bytes 4) (sha256_blocks (length data / 64) data sha256_init)).

(** The magic of the main Bitcoin network, for concrete runs; the properties
    hold for any value of the macro. *)
Definition BITCOIN_MAGIC_ref : Z := 0xd9b4bef9.

(** The interface of the class [CSHA256] of [crypto/sha2.h], which is not
    among the sources: a fresh object, [Write(data, len)] applied to the
    [len] bytes read, [Finalize(hash)] giving the bytes it stores and the
    object it leaves, and [Reset()].  Two facts about the class are part of
    the interface: writing in two pieces is writing the concatenation, and
    [Finalize] stores 32 bytes ([OUTPUT_SIZE]). *)
Class CSHA256_api : Type := {
  CSHA256 : Type;
  CSHA256_new : CSHA256;
  CSHA256_Write : CSHA256 -> list byte -> CSHA256;
  CSHA256_Finalize : CSHA256 -> list byte * CSHA256;
  CSHA256_Reset : CSHA256 -> CSHA256;
  Write_Write : forall h x y, CSHA256_Write (CSHA256_Write h x) y = CSHA256_Write h (x ++ y);
  Finalize_size : forall h, length (fst (CSHA256_Finalize h)) = 32%nat
}.

(** A list whose length is known is the list of its elements. *)
Ltac explode l H :=
  repeat match type of H with
         | length l = S _ =>
             let b := fresh "b" in
             destruct l as [|b l]; [discriminate H|];
             cbn [length] in H; apply Nat.succ_inj in H
         | length l = O => destruct l; [clear H | discriminate H]
         end.

(** The routines and constants the file links against are parameters of
    everything that follows. *)
Section Linked.

(** The routine [extern "C" void SHA256(void *, uint32_t[8], uint64_t)]:
    block data, state, number of 64-byte blocks; it updates the state. *)
Variable SHA256 : list byte -> sha_state -> Z -> sha_state.

Context {api : CSHA256_api}.

Variable cfg : config.

(** The byte order of the machine the file is compiled for. *)
Variable host : endianness.

(** The macro [BITCOIN_MAGIC] of [utils.h], a [uint32_t]. *)
Variable BITCOIN_MAGIC : Z.

(** [hash.Reset().Write(res, 32).Finalize(res)] after a first
    [hash.Finalize(res)]. *)
Definition second_hash (fin : list byte * CSHA256) : run (list byte) :=
  (res <- read (fst fin) 0 32 ;;
   Done (fst (CSHA256_Finalize (CSHA256_Write (CSHA256_Reset (snd fin)) res))))%run.

Definition double_sha256 (input : list byte) (byte_count : Z) : run (list byte) :=
  match cfg with
  | GenericHash =>
      (hash <- (if byte_count =? 0 then Done CSHA256_new
                else (bs <- read input 0 byte_count ;; Done (CSHA256_Write CSHA256_new bs))) ;;
       second_hash (CSHA256_Finalize hash))%run
  | RawCompress =>
      (data <- first_pass_data input byte_count ;;
       let state := sha256_init in
       assert (padded_size byte_count mod 64 =? 0) ;;
       let state := SHA256 data state (padded_size byte_count / 64) in
       data <- second_pass_data data state ;;
       let state := sha256_init in
       let state := SHA256 data state 1 in
       sha256_done (vector 32) 0 state)%run
  end.

(** [data0] is what the array [data] holds before it is written. *)
Definition double_sha256_two_32_inputs (data0 input input2 : list byte) : run (list byte) :=
  match cfg with
  | GenericHash =>
      (a <- read input 0 32 ;;
       b <- read input2 0 32 ;;
       second_hash (CSHA256_Finalize (CSHA256_Write (CSHA256_Write CSHA256_new a) b)))%run
  | RawCompress =>
      (data <- two_inputs_data data0 input input2 ;;
       let state := sha256_init in
       let state := SHA256 data state 2 in
       data <- second_pass_data data state ;;
       let state := sha256_init in
       let state := SHA256 data state 1 in
       sha256_done (vector 32) 0 state)%run
  end.

(** ** Network utils: the message header *)

(** [headerAndData] is the header followed by [datalen] bytes of payload. *)
Definition prepare_message (command headerAndData : list byte) (datalen : Z) : run (list byte) :=
  (buf <- memset headerAndData offsetof_command x00 sizeof_command ;;
   buf <- strcpy buf offsetof_command command ;;
   buf <- write buf offsetof_length (object_bytes host 4 (htole host 4 (to_uint32 datalen))) ;;
   buf <- write buf offsetof_magic (object_bytes host 4 (to_uint32 BITCOIN_MAGIC)) ;;
   fullhash <- double_sha256 (skipn (Z.to_nat sizeof_header) buf) (to_uint64 datalen) ;;
   memcpy buf offsetof_checksum fullhash sizeof_checksum)%run.

(** ** Random stuff: the hash of a block header *)

(** <<
    assert(hashRes.size() == 32);
    return double_sha256(&block[offset], &hashRes[0], 80);
    >>
    The result is what [hashRes] holds afterwards. *)
Definition getblockhash (hashRes block : list byte) (offset : Z) : run (list byte) :=
  (assert (len hashRes =? 32) ;;
   double_sha256 (skipn (Z.to_nat offset) block) 80)%run.

(** * Properties *)

(** ** Bytes and byte order *)

Lemma byte_val_range (b : byte) : 0 <= byte_val b < 2 ^ 8.
Proof.
  unfold byte_val. pose proof (Byte.to_N_bounded b). lia.
Qed.

Lemma byte_val_of (z : Z) : byte_val (byte_of z) = z mod 2 ^ 8.
Proof.
  unfold byte_of, byte_val, to_uint8.
  assert (R : 0 <= z mod 2 ^ 8 < 2 ^ 8) by (apply Z.mod_pos_bound; lia).
  destruct (Byte.of_N (Z.to_N (z mod 2 ^ 8))) as [b|] eqn:E.
  - apply Byte.to_of_N in E. rewrite E. lia.
  - apply Byte.of_N_None_iff in E. lia.
Qed.

Lemma byte_of_val (b : byte) : byte_of (byte_val b) = b.
Proof.
  unfold byte_of, to_uint8. pose proof (byte_val_range b) as R.
  rewrite Z.mod_small by exact R.
  unfold byte_val. rewrite N2Z.id, Byte.of_to_N. reflexivity.
Qed.

Lemma byte_of_mod (z : Z) : byte_of (z mod 2 ^ 8) = byte_of z.
Proof.
  unfold byte_of, to_uint8. rewrite Z.mod_mod by lia. reflexivity.
Qed.

Lemma length_le_bytes (n : nat) : forall x, length (le_bytes n x) = n.
Proof.
  induction n as [|n IH]; intro x; simpl; [reflexivity | now rewrite IH].
Qed.


Lemma le_value_le_bytes (n : nat) : forall x,
  le_value (le_bytes n x) = x mod 2 ^ (8 * Z.of_nat n).
Proof.
  induction n as [|n IH]; intro x.
  - simpl. now rewrite Z.mod_1_r.
  - cbn [le_bytes le_value]. rewrite byte_val_of, IH, Z.shiftr_div_pow2 by lia.
    replace (8 * Z.of_nat (S n)) with (8 + 8 * Z.of_nat n) by lia.
    rewrite Z.pow_add_r by lia.
    rewrite (Z.rem_mul_r x (2 ^ 8) (2 ^ (8 * Z.of_nat n))) by lia.
    reflexivity.
Qed.

Lemma le_bytes_le_value (bs : list byte) : le_bytes (length bs) (le_value bs) = bs.
Proof.
  induction bs as [|b bs IH]; [reflexivity|].
  cbn [length le_bytes le_value]. pose proof (byte_val_range b) as R.
  f_equal.
  - rewrite <- byte_of_mod.
    replace ((byte_val b + 2 ^ 8 * le_value bs) mod 2 ^ 8) with (byte_val b).
    + apply byte_of_val.
    + rewrite (Z.mul_comm (2 ^ 8)), Z.mod_add by lia.
      symmetry. now apply Z.mod_small.
  - rewrite Z.shiftr_div_pow2 by lia.
    replace ((byte_val b + 2 ^ 8 * le_value bs) / 2 ^ 8) with (le_value bs); [exact IH|].
    rewrite (Z.mul_comm (2 ^ 8)), Z.div_add by lia.
    rewrite (Z.div_small (byte_val b)) by exact R. lia.
Qed.

Lemma le_bytes_mod (n : nat) (x : Z) :
  le_bytes n (x mod 2 ^ (8 * Z.of_nat n)) = le_bytes n x.
Proof.
  rewrite <- (le_value_le_bytes n x).
  rewrite <- (length_le_bytes n x) at 1. apply le_bytes_le_value.
Qed.

(** The byte swap of [htole] and the host's byte order cancel: what lands in
    memory is little-endian on either host. *)
Lemma object_bytes_htole (n : nat) (x : Z) :
  object_bytes host n (htole host n x) = le_bytes n x.
Proof.
  destruct host; [reflexivity|].
  unfold object_bytes, htole, bswap, be_bytes, be_value.
  rewrite <- (rev_involutive (le_bytes n x)) at 2. f_equal.
  rewrite <- (length_le_bytes n x) at 1. rewrite <- length_rev.
  apply le_bytes_le_value.
Qed.

Lemma object_bytes_1 (x : Z) : object_bytes host 1 x = [byte_of x].
Proof. destruct host; reflexivity. Qed.

(** [a | b] is [a + b] when [a] is a multiple of [2^n] and [b] is below it;
    [a] may be negative. *)
Lemma lor_disjoint_add (k a n : Z) :
  0 <= n -> 0 <= a < 2 ^ n -> Z.lor (k * 2 ^ n) a = k * 2 ^ n + a.
Proof.
  intros Hn Ha.
  assert (L : Z.land (k * 2 ^ n) a = 0).
  { apply Z.bits_inj'. intros m Hm. rewrite Z.land_spec, Z.bits_0.
    destruct (Z.lt_ge_cases m n) as [Hlt|Hge].
    - rewrite Z.mul_pow2_bits_low by lia. reflexivity.
    - rewrite <- (Z.mod_small a (2 ^ n)) by lia.
      rewrite Z.mod_pow2_bits_high by lia. apply andb_false_r. }
  rewrite (Z.add_nocarry_lxor _ _ L). symmetry. now apply Z.lxor_lor.
Qed.

(** ** The varint decoder *)

Lemma len_app (a b : list byte) : len (a ++ b) = len a + len b.
Proof. unfold len. rewrite length_app. lia. Qed.

Lemma len_cons (b : byte) (l : list byte) : len (b :: l) = 1 + len l.
Proof. unfold len. simpl length. lia. Qed.

Lemma len_nonneg (l : list byte) : 0 <= len l.
Proof. unfold len. lia. Qed.

Lemma to_ptrdiff_small (i : Z) : - 2 ^ 63 <= i < 2 ^ 63 -> to_ptrdiff i = i.
Proof. intro H. unfold to_ptrdiff. rewrite Z.mod_small; lia. Qed.

Lemma ptr_add_small (p n : Z) : 0 <= p + n < 2 ^ 64 -> ptr_add p n = p + n.
Proof. intro H. unfold ptr_add, to_uint64. now apply Z.mod_small. Qed.

(** While [end - i] is an address, [move_forward] is the test it is meant to
    be: it advances by [i] when [i] elements are left, and throws with the
    iterator unmoved when they are not. *)
Lemma move_forward_ok (i end_ it : Z) :
  0 <= i < 2 ^ 63 -> 0 <= it -> it + i <= end_ -> end_ < 2 ^ 64 ->
  move_forward i end_ it = (Returned tt, it + i).
Proof.
  intros Hi H0 H He. unfold move_forward, bind, get_it, throw, advance. cbv zeta.
  rewrite to_ptrdiff_small by lia. rewrite (ptr_add_small end_) by lia.
  destruct (Z.gtb_spec it (end_ + - i)); [lia |].
  rewrite ptr_add_small by lia. reflexivity.
Qed.

Lemma move_forward_throws (i end_ it : Z) :
  0 <= i < 2 ^ 63 -> i <= end_ -> end_ < 2 ^ 64 -> end_ - i < it ->
  move_forward i end_ it = (Thrown read_exception, it).
Proof.
  intros Hi H0 He H. unfold move_forward, bind, get_it, throw, advance. cbv zeta.
  rewrite to_ptrdiff_small by lia. rewrite (ptr_add_small end_) by lia.
  destruct (Z.gtb_spec it (end_ + - i)); [reflexivity | lia].
Qed.

(** When [end] is an address below [i], [end - i] wraps and the test lets
    every iterator up to it through. *)
Lemma move_forward_wraps (i end_ it : Z) :
  0 < i < 2 ^ 63 -> 0 <= end_ < i -> 0 <= it <= end_ ->
  move_forward i end_ it = (Returned tt, it + i).
Proof.
  intros Hi He H. unfold move_forward, bind, get_it, throw, advance. cbv zeta.
  rewrite to_ptrdiff_small by lia.
  assert (W : ptr_add end_ (- i) = end_ - i + 2 ^ 64).
  { unfold ptr_add, to_uint64.
    replace (end_ + - i) with (end_ - i + 2 ^ 64 + -1 * 2 ^ 64) by lia.
    rewrite Z.mod_add by lia. apply Z.mod_small. lia. }
  rewrite W.
  destruct (Z.gtb_spec it (end_ - i + 2 ^ 64)); [lia |].
  rewrite ptr_add_small by lia. reflexivity.
Qed.

Lemma deref_app (pre l : list byte) (k : Z) :
  0 <= k -> deref (pre ++ l) (len pre + k) = deref l k.
Proof.
  intro H. unfold deref, len.
  rewrite Z2Nat.inj_add, Nat2Z.id by lia.
  now rewrite app_nth2_plus.
Qed.

Lemma deref_at (pre : list byte) (b : byte) (l : list byte) :
  deref (pre ++ b :: l) (len pre) = byte_val b.
Proof.
  rewrite <- (Z.add_0_r (len pre)), deref_app by lia. reflexivity.
Qed.

Lemma load_in (base : Z) (v : list byte) (p it : Z) :
  base <= p < base + len v ->
  load base v p it = (Returned (deref v (p - base)), it).
Proof.
  intro H. unfold load. fold (len v).
  destruct (Z.leb_spec base p); [| lia].
  destruct (Z.ltb_spec p (base + len v)); [reflexivity | lia].
Qed.

(** A read inside the elements, as the next step of a computation. *)
Lemma bind_load {B : Type} (base : Z) (pre l : list byte) (k p : Z)
      (f : Z -> cursor B) (it : Z) :
  p = base + len pre + k -> 0 <= k < len l ->
  (b <- load base (pre ++ l) p ;; f b)%cursor it = f (deref l k) it.
Proof.
  intros -> H. unfold bind. pose proof (len_nonneg pre).
  rewrite load_in by (rewrite len_app; lia).
  replace (base + len pre + k - base) with (len pre + k) by lia.
  rewrite deref_app by lia. reflexivity.
Qed.

(** The first step of [read_varint]: the prefix byte is consumed before
    anything else is looked at. *)
Lemma read_varint_prefix (base : Z) (pre : list byte) (b : byte) (l : list byte) (end_ : Z) :
  0 <= base -> base + len pre + 1 <= end_ -> end_ < 2 ^ 64 ->
  read_varint base (pre ++ b :: l) end_ (base + len pre) =
  let v := pre ++ b :: l in
  let first := byte_val b in
  if first <? 0xfd then (Returned first, base + len pre + 1)
  else if first =? 0xfd then
    (move_forward 2 end_ ;;
     it <- get_it ;;
     b1 <- load base v (ptr_add it (-1)) ;;
     b2 <- load base v (ptr_add it (-2)) ;;
     ret (to_uint64 (Z.lor (int_shl b1 8) b2)))%cursor (base + len pre + 1)
  else if first =? 0xfe then
    (move_forward 4 end_ ;;
     it <- get_it ;;
     b1 <- load base v (ptr_add it (-1)) ;;
     b2 <- load base v (ptr_add it (-2)) ;;
     b3 <- load base v (ptr_add it (-3)) ;;
     b4 <- load base v (ptr_add it (-4)) ;;
     ret (to_uint64
            (Z.lor (Z.lor (Z.lor (int_shl b1 24) (int_shl b2 16)) (int_shl b3 8)) b4)))%cursor
      (base + len pre + 1)
  else
    (move_forward 8 end_ ;;
     it <- get_it ;;
     b1 <- load base v (ptr_add it (-1)) ;;
     b2 <- load base v (ptr_add it (-2)) ;;
     b3 <- load base v (ptr_add it (-3)) ;;
     b4 <- load base v (ptr_add it (-4)) ;;
     b5 <- load base v (ptr_add it (-5)) ;;
     b6 <- load base v (ptr_add it (-6)) ;;
     b7 <- load base v (ptr_add it (-7)) ;;
     b8 <- load base v (ptr_add it (-8)) ;;
     ret (Z.lor (Z.lor (Z.lor (Z.lor (Z.lor (Z.lor (Z.lor
            (uint64_shl (to_uint64 b1) 56)
            (uint64_shl (to_uint64 b2) 48))
            (uint64_shl (to_uint64 b3) 40))
            (uint64_shl (to_uint64 b4) 32))
            (uint64_shl (to_uint64 b5) 24))
            (uint64_shl (to_uint64 b6) 16))
            (uint64_shl (to_uint64 b7) 8))
            (to_uint64 b8)))%cursor (base + len pre + 1).
Proof.
  intros Hb H He. pose proof (len_nonneg pre) as Hp. unfold read_varint.
  unfold bind at 1. rewrite move_forward_ok by lia.
  unfold bind at 1. unfold get_it at 1.
  rewrite (bind_load base pre (b :: l) 0)
    by (rewrite ?ptr_add_small, ?len_cons; pose proof (len_nonneg l); lia).
  change (deref (b :: l) 0) with (byte_val b). cbv zeta.
  assert (E : to_uint8 (byte_val b) = byte_val b)
    by (apply Z.mod_small, byte_val_range).
  rewrite E.
  destruct (byte_val b <? 253); [reflexivity|].
  destruct (byte_val b =? 253); [reflexivity|].
  destruct (byte_val b =? 254); reflexivity.
Qed.

Lemma to_int_small (z : Z) : - 2 ^ 31 <= z < 2 ^ 31 -> to_int z = z.
Proof. intro H. unfold to_int. rewrite Z.mod_small; lia. Qed.

Lemma to_int_high (z : Z) : 2 ^ 31 <= z < 2 ^ 32 -> to_int z = z - 2 ^ 32.
Proof.
  intro H. unfold to_int.
  replace (z + 2 ^ 31) with (z - 2 ^ 31 + 1 * 2 ^ 32) by lia.
  rewrite Z.mod_add by lia. rewrite Z.mod_small; lia.
Qed.

Lemma to_uint64_small (z : Z) : 0 <= z < 2 ^ 64 -> to_uint64 z = z.
Proof. intro H. now apply Z.mod_small. Qed.

Lemma int_shl_byte (b : byte) (n : Z) :
  0 <= n <= 16 -> int_shl (byte_val b) n = byte_val b * 2 ^ n.
Proof.
  intro H. unfold int_shl. rewrite Z.shiftl_mul_pow2 by lia.
  pose proof (byte_val_range b) as R. apply to_int_small.
  assert (0 < 2 ^ n <= 2 ^ 16) by (split; [apply Z.pow_pos_nonneg; lia | apply Z.pow_le_mono_r; lia]).
  change (2 ^ 8) with 256 in R. change (2 ^ 16) with 65536 in *. nia.
Qed.

Lemma lor_chain (k b2 b1 b0 : Z) :
  0 <= b2 < 2 ^ 8 -> 0 <= b1 < 2 ^ 8 -> 0 <= b0 < 2 ^ 8 ->
  Z.lor (Z.lor (Z.lor (k * 2 ^ 24) (b2 * 2 ^ 16)) (b1 * 2 ^ 8)) b0
  = k * 2 ^ 24 + b2 * 2 ^ 16 + b1 * 2 ^ 8 + b0.
Proof.
  intros H2 H1 H0.
  rewrite (lor_disjoint_add k (b2 * 2 ^ 16) 24) by lia.
  replace (k * 2 ^ 24 + b2 * 2 ^ 16) with ((k * 2 ^ 8 + b2) * 2 ^ 16) by lia.
  rewrite (lor_disjoint_add _ (b1 * 2 ^ 8) 16) by lia.
  replace ((k * 2 ^ 8 + b2) * 2 ^ 16 + b1 * 2 ^ 8)
    with ((k * 2 ^ 16 + b2 * 2 ^ 8 + b1) * 2 ^ 8) by lia.
  rewrite (lor_disjoint_add _ b0 8) by lia. lia.
Qed.

(** What the [0xfd] branch returns: the little-endian 16-bit value of the two
    bytes after the prefix, whatever it is. *)
Lemma read_varint_fd (base : Z) (pre : list byte) (b0 b1 : byte) (rest : list byte) :
  0 <= base -> base + len (pre ++ xfd :: b0 :: b1 :: rest) < 2 ^ 64 ->
  read_varint base (pre ++ xfd :: b0 :: b1 :: rest)
              (base + len (pre ++ xfd :: b0 :: b1 :: rest)) (base + len pre)
  = (Returned (le_value [b0; b1]), base + len pre + 3).
Proof.
  intros Hb He.
  pose proof (len_nonneg rest) as Hr. pose proof (len_nonneg pre) as Hp.
  rewrite len_app, !len_cons in *.
  rewrite read_varint_prefix by lia.
  cbv zeta. change (byte_val xfd) with 253.
  change (253 <? 253) with false. change (253 =? 253) with true. cbv iota.
  unfold bind at 1. rewrite move_forward_ok by lia.
  unfold bind at 1, get_it at 1.
  rewrite (bind_load base pre (xfd :: b0 :: b1 :: rest) 2)
    by (rewrite ?ptr_add_small, ?len_cons; lia).
  rewrite (bind_load base pre (xfd :: b0 :: b1 :: rest) 1)
    by (rewrite ?ptr_add_small, ?len_cons; lia).
  unfold ret.
  change (deref (xfd :: b0 :: b1 :: rest) 2) with (byte_val b1).
  change (deref (xfd :: b0 :: b1 :: rest) 1) with (byte_val b0).
  rewrite int_shl_byte by lia.
  pose proof (byte_val_range b0) as R0. pose proof (byte_val_range b1) as R1.
  rewrite lor_disjoint_add by lia.
  cbn [le_value]. change (2 ^ 8) with 256 in *.
  rewrite to_uint64_small by lia.
  f_equal; [f_equal|]; lia.
Qed.

(** What the [0xfe] branch returns: the four bytes after the prefix are
    combined in [int], so the 32-bit value is read as signed and sign-extended
    by the conversion to the 64-bit return type. *)
Lemma read_varint_fe (base : Z) (pre : list byte) (b0 b1 b2 b3 : byte) (rest : list byte) :
  0 <= base -> base + len (pre ++ xfe :: b0 :: b1 :: b2 :: b3 :: rest) < 2 ^ 64 ->
  read_varint base (pre ++ xfe :: b0 :: b1 :: b2 :: b3 :: rest)
              (base + len (pre ++ xfe :: b0 :: b1 :: b2 :: b3 :: rest)) (base + len pre)
  = (Returned (to_uint64 (to_int (le_value [b0; b1; b2; b3]))), base + len pre + 5).
Proof.
  intros Hb He.
  pose proof (len_nonneg rest) as Hr. pose proof (len_nonneg pre) as Hp.
  rewrite len_app, !len_cons in *.
  rewrite read_varint_prefix by lia.
  cbv zeta. change (byte_val xfe) with 254.
  change (254 <? 253) with false. change (254 =? 253) with false.
  change (254 =? 254) with true. cbv iota.
  unfold bind at 1. rewrite move_forward_ok by lia.
  unfold bind at 1, get_it at 1.
  rewrite (bind_load base pre (xfe :: b0 :: b1 :: b2 :: b3 :: rest) 4)
    by (rewrite ?ptr_add_small, ?len_cons; lia).
  rewrite (bind_load base pre (xfe :: b0 :: b1 :: b2 :: b3 :: rest) 3)
    by (rewrite ?ptr_add_small, ?len_cons; lia).
  rewrite (bind_load base pre (xfe :: b0 :: b1 :: b2 :: b3 :: rest) 2)
    by (rewrite ?ptr_add_small, ?len_cons; lia).
  rewrite (bind_load base pre (xfe :: b0 :: b1 :: b2 :: b3 :: rest) 1)
    by (rewrite ?ptr_add_small, ?len_cons; lia).
  unfold ret.
  change (deref (xfe :: b0 :: b1 :: b2 :: b3 :: rest) 4) with (byte_val b3).
  change (deref (xfe :: b0 :: b1 :: b2 :: b3 :: rest) 3) with (byte_val b2).
  change (deref (xfe :: b0 :: b1 :: b2 :: b3 :: rest) 2) with (byte_val b1).
  change (deref (xfe :: b0 :: b1 :: b2 :: b3 :: rest) 1) with (byte_val b0).
  rewrite (int_shl_byte b2 16), (int_shl_byte b1 8) by lia.
  pose proof (byte_val_range b0) as R0. pose proof (byte_val_range b1) as R1.
  pose proof (byte_val_range b2) as R2. pose proof (byte_val_range b3) as R3.
  unfold int_shl. rewrite Z.shiftl_mul_pow2 by lia.
  cbn [le_value]. change (2 ^ 8) with 256 in *.
  replace (base + len pre + 1 + 4) with (base + len pre + 5) by lia.
  f_equal. f_equal. f_equal.
  destruct (Z.lt_ge_cases (byte_val b3) 128) as [Hlo|Hhi].
  - rewrite (to_int_small (byte_val b3 * 2 ^ 24)) by lia.
    rewrite lor_chain by (change (2 ^ 8) with 256; lia).
    rewrite to_int_small by lia. lia.
  - rewrite (to_int_high (byte_val b3 * 2 ^ 24)) by lia.
    replace (byte_val b3 * 2 ^ 24 - 2 ^ 32) with ((byte_val b3 - 256) * 2 ^ 24) by lia.
    rewrite lor_chain by (change (2 ^ 8) with 256; lia).
    rewrite to_int_high by lia. lia.
Qed.

(** What [read_varint] does when the bytes run out. *)
Lemma read_varint_empty (base : Z) (v : list byte) (end_ : Z) :
  0 < end_ < 2 ^ 64 ->
  read_varint base v end_ end_ = (Thrown read_exception, end_).
Proof.
  intro H. unfold read_varint. unfold bind at 1.
  rewrite move_forward_throws by lia. reflexivity.
Qed.

(** A vector without storage: [begin()] and [end()] are the null address,
    [end - 1] is the last address there is, the test lets the iterator
    through, and the byte read next is the one at the null address. *)
Lemma read_varint_without_storage : read_varint 0 [] 0 0 = (Undefined, 1).
Proof. reflexivity. Qed.

Lemma read_varint_short (base : Z) (pre : list byte) (b : byte) (rest : list byte) (w : Z) :
  (byte_val b = 0xfd /\ w = 2) \/ (byte_val b = 0xfe /\ w = 4) \/ (byte_val b = 0xff /\ w = 8) ->
  len rest < w ->
  8 <= base -> base + len (pre ++ b :: rest) < 2 ^ 64 ->
  read_varint base (pre ++ b :: rest) (base + len (pre ++ b :: rest)) (base + len pre)
  = (Thrown read_exception, base + len pre + 1).
Proof.
  intros Hb Hr H8 He.
  pose proof (len_nonneg rest). pose proof (len_nonneg pre).
  rewrite len_app, len_cons in *.
  rewrite read_varint_prefix by lia.
  cbv zeta.
  destruct Hb as [[-> ->]|[[-> ->]|[-> ->]]]; cbv iota beta;
    [change (253 <? 253) with false; change (253 =? 253) with true
    |change (254 <? 253) with false; change (254 =? 253) with false;
     change (254 =? 254) with true
    |change (255 <? 253) with false; change (255 =? 253) with false;
     change (255 =? 254) with false];
    cbv iota; unfold bind at 1;
    rewrite move_forward_throws by lia;
    reflexivity.
Qed.

Lemma read_varint_ff_short (base : Z) (pre rest : list byte) :
  len rest < 8 ->
  8 <= base -> base + len (pre ++ xff :: rest) < 2 ^ 64 ->
  read_varint base (pre ++ xff :: rest) (base + len (pre ++ xff :: rest)) (base + len pre)
  = (Thrown read_exception, base + len pre + 1).
Proof.
  intros H H8 He.
  apply (read_varint_short base pre xff rest 8); auto.
Qed.

(** ** The varint encoder *)

Lemma to_uint32_small (z : Z) : 0 <= z <= 0xffffffff -> to_uint32 z = z.
Proof. intro H. apply Z.mod_small. change (2 ^ 32) with 4294967296. lia. Qed.

Lemma varint_one_byte (v : Z) :
  0 <= v < 0xfd -> varint host v = [byte_of v].
Proof.
  intro H. unfold varint. cbv zeta. rewrite to_uint32_small by lia.
  destruct (Z.ltb_spec v 253); [|lia].
  rewrite object_bytes_1. unfold to_uint8. now rewrite byte_of_mod.
Qed.

Lemma varint_three_bytes (v : Z) :
  0xfd <= v <= 0xffff -> varint host v = xfd :: le_bytes 2 v.
Proof.
  intro H. unfold varint. cbv zeta. rewrite to_uint32_small by lia.
  destruct (Z.ltb_spec v 253); [lia|].
  destruct (Z.leb_spec v 65535); [|lia].
  rewrite object_bytes_htole. unfold to_uint16.
  change (2 ^ 16) with (2 ^ (8 * Z.of_nat 2)). rewrite le_bytes_mod. reflexivity.
Qed.

Lemma varint_five_bytes (v : Z) :
  0x10000 <= v <= 0xffffffff -> varint host v = xfe :: le_bytes 4 v.
Proof.
  intro H. unfold varint. cbv zeta. rewrite !to_uint32_small by lia.
  destruct (Z.ltb_spec v 253); [lia|].
  destruct (Z.leb_spec v 65535); [lia|].
  destruct (Z.leb_spec v 4294967295); [|lia].
  rewrite object_bytes_htole. reflexivity.
Qed.

(** The test [size <= 0xffffffff] cannot fail on a 32-bit [size]. *)
Lemma varint_last_branch_dead (arg : Z) : (to_uint32 arg <=? 0xffffffff) = true.
Proof.
  unfold to_uint32. pose proof (Z.mod_pos_bound arg (2 ^ 32) ltac:(lia)) as R.
  apply Z.leb_le. change (2 ^ 32) with 4294967296 in *. lia.
Qed.

Lemma varint_of_uint32 (arg : Z) : varint host arg = varint host (to_uint32 arg).
Proof.
  unfold varint, to_uint32. rewrite !Z.mod_mod by lia. reflexivity.
Qed.

Lemma decode_one_byte (base v : Z) :
  0 <= v < 0xfd -> 0 <= base -> base + 1 < 2 ^ 64 ->
  decode base [byte_of v] = (Returned v, base + 1).
Proof.
  intros H Hb He. unfold decode.
  pose proof (read_varint_prefix base [] (byte_of v) [] (base + 1)) as P.
  change (len []) with 0 in P. rewrite Z.add_0_r in P.
  change ([] ++ [byte_of v]) with [byte_of v] in P.
  change (Z.of_nat (length [byte_of v])) with 1.
  rewrite P by lia.
  cbv zeta. rewrite byte_val_of, Z.mod_small by (change (2 ^ 8) with 256; lia).
  destruct (Z.ltb_spec v 253); [reflexivity | lia].
Qed.

Lemma decode_three_bytes (base v : Z) :
  0 <= v <= 0xffff -> 0 <= base -> base + 3 < 2 ^ 64 ->
  decode base (xfd :: le_bytes 2 v) = (Returned v, base + 3).
Proof.
  intros H Hb He. unfold decode. cbn [le_bytes].
  pose proof (read_varint_fd base [] (byte_of v) (byte_of (Z.shiftr v 8)) []) as P.
  change (len []) with 0 in P. rewrite Z.add_0_r in P.
  refine (eq_trans (P Hb He) _).
  change [byte_of v; byte_of (Z.shiftr v 8)] with (le_bytes 2 v).
  rewrite le_value_le_bytes, Z.mod_small by (change (2 ^ (8 * Z.of_nat 2)) with 65536; lia).
  reflexivity.
Qed.

Lemma decode_five_bytes (base v : Z) :
  0 <= v <= 0xffffffff -> 0 <= base -> base + 5 < 2 ^ 64 ->
  decode base (xfe :: le_bytes 4 v) = (Returned (to_uint64 (to_int v)), base + 5).
Proof.
  intros H Hb He. unfold decode. cbn [le_bytes].
  pose proof (read_varint_fe base [] (byte_of v) (byte_of (Z.shiftr v 8))
                (byte_of (Z.shiftr (Z.shiftr v 8) 8))
                (byte_of (Z.shiftr (Z.shiftr (Z.shiftr v 8) 8) 8)) []) as P.
  change (len []) with 0 in P. rewrite Z.add_0_r in P.
  refine (eq_trans (P Hb He) _).
  change [byte_of v; byte_of (Z.shiftr v 8); byte_of (Z.shiftr (Z.shiftr v 8) 8);
          byte_of (Z.shiftr (Z.shiftr (Z.shiftr v 8) 8) 8)] with (le_bytes 4 v).
  rewrite le_value_le_bytes, Z.mod_small by (change (2 ^ (8 * Z.of_nat 4)) with 4294967296; lia).
  reflexivity.
Qed.


(** The [0xfe] form gives the 32-bit value back when its top bit is clear,
    and the value with the upper 32 bits set when it is not. *)
Lemma read_varint_fe_low (base : Z) (pre : list byte) (b0 b1 b2 b3 : byte) (rest : list byte) :
  byte_val b3 < 0x80 ->
  0 <= base -> base + len (pre ++ xfe :: b0 :: b1 :: b2 :: b3 :: rest) < 2 ^ 64 ->
  read_varint base (pre ++ xfe :: b0 :: b1 :: b2 :: b3 :: rest)
              (base + len (pre ++ xfe :: b0 :: b1 :: b2 :: b3 :: rest)) (base + len pre)
  = (Returned (le_value [b0; b1; b2; b3]), base + len pre + 5).
Proof.
  intros H Hb He. rewrite read_varint_fe by assumption. do 2 f_equal.
  pose proof (byte_val_range b0). pose proof (byte_val_range b1).
  pose proof (byte_val_range b2). pose proof (byte_val_range b3).
  cbn [le_value]. change (2 ^ 8) with 256 in *.
  rewrite to_int_small by lia. apply to_uint64_small.
  change (2 ^ 64) with 18446744073709551616. lia.
Qed.

Lemma read_varint_fe_high (base : Z) (pre : list byte) (b0 b1 b2 b3 : byte) (rest : list byte) :
  0x80 <= byte_val b3 ->
  0 <= base -> base + len (pre ++ xfe :: b0 :: b1 :: b2 :: b3 :: rest) < 2 ^ 64 ->
  read_varint base (pre ++ xfe :: b0 :: b1 :: b2 :: b3 :: rest)
              (base + len (pre ++ xfe :: b0 :: b1 :: b2 :: b3 :: rest)) (base + len pre)
  = (Returned (le_value [b0; b1; b2; b3] + (2 ^ 64 - 2 ^ 32)), base + len pre + 5).
Proof.
  intros H Hb He. rewrite read_varint_fe by assumption. do 2 f_equal.
  pose proof (byte_val_range b0). pose proof (byte_val_range b1).
  pose proof (byte_val_range b2). pose proof (byte_val_range b3).
  cbn [le_value]. change (2 ^ 8) with 256 in *.
  rewrite to_int_high by lia. unfold to_uint64.
  change (2 ^ 64) with 18446744073709551616. change (2 ^ 32) with 4294967296.
  match goal with
  | |- ?x mod ?m = _ => replace x with (x + m + -1 * m) by lia
  end.
  rewrite Z.mod_add by lia. rewrite Z.mod_small by lia. lia.
Qed.

(** ** The varint codec: the claims

    In what follows the elements of a vector lie in memory from an address
    [base] on, and the vector ends before the end of the address space:
    [0 <= base] and [base + len v < 2^64].  Where a statement is about a
    throw it also asks for [8 <= base]: storage comes from the allocator,
    which hands out no address that low; only a vector without storage has
    a lower one, the null address (see [read_varint_without_storage]). *)

(** C1, as amended.  The encoder takes a 32-bit [size].  On that domain it
    always picks the narrowest of its forms: one byte below [0xfd], [0xfd] and
    a little-endian 16-bit value up to [0xffff], [0xfe] and a little-endian
    32-bit value above; and for every value below [2^31] decoding the encoding
    gives the value back and leaves the iterator at the end of the encoding,
    wherever in memory the encoding lies.  A 64-bit argument is first reduced
    modulo [2^32]. *)
Theorem varint_minimal_and_roundtrip (v : Z) :
  0 <= v <= 0xffffffff ->
  (v < 0xfd -> varint host v = [byte_of v]) /\
  (0xfd <= v <= 0xffff -> varint host v = xfd :: le_bytes 2 v) /\
  (0x10000 <= v -> varint host v = xfe :: le_bytes 4 v) /\
  (v < 2 ^ 31 ->
   forall base, 0 <= base -> base + len (varint host v) < 2 ^ 64 ->
     decode base (varint host v) = (Returned v, base + len (varint host v))) /\
  (forall arg, to_uint32 arg = v -> varint host arg = varint host v).
Proof.
  intro H. repeat split.
  - intro. apply varint_one_byte. lia.
  - intro. now apply varint_three_bytes.
  - intro. apply varint_five_bytes. lia.
  - intros Hv base Hb. change (2 ^ 31) with 2147483648 in Hv.
    destruct (Z.lt_ge_cases v 253) as [H1|H1].
    + rewrite varint_one_byte by lia. intro He. apply decode_one_byte; [lia | lia | exact He].
    + destruct (Z.le_gt_cases v 65535) as [H2|H2].
      * rewrite varint_three_bytes by lia. intro He.
        apply decode_three_bytes; [lia | lia | exact He].
      * rewrite varint_five_bytes by lia. intro He.
        rewrite decode_five_bytes by (try exact He; lia).
        rewrite to_int_small by lia. rewrite to_uint64_small by lia. reflexivity.
  - intros arg E. rewrite varint_of_uint32, E. reflexivity.
Qed.

(** C2: the run of [read_varint] on the bytes [fe 00 00 00 80], wherever in
    memory they lie.  The value returned is [0xffffffff80000000], not the
    little-endian 32-bit value [0x80000000] of the four bytes after the
    prefix: the bytes are combined in [int] and the negative [int] is
    sign-extended to 64 bits. *)
Theorem read_varint_fe_sign_extends (base : Z) :
  0 <= base -> base + 5 < 2 ^ 64 ->
  read_varint base [xfe; x00; x00; x00; x80] (base + 5) base
  = (Returned 0xffffffff80000000, base + 5)
  /\ le_value [x00; x00; x00; x80] = 0x80000000
  /\ 2 ^ 32 <= 0xffffffff80000000.
Proof.
  intros Hb He. split; [| split; [reflexivity | discriminate]].
  pose proof (read_varint_fe base [] x00 x00 x00 x80 []) as P.
  change (len []) with 0 in P. rewrite Z.add_0_r in P.
  exact (P Hb He).
Qed.

(** C3, as amended.  With no byte left, and an [end] that is not the null
    address, [read_varint] throws and leaves the iterator where it was.  On
    the prefix [0xff] followed by fewer than eight bytes it throws as well,
    and the iterator is left one past the prefix byte: the prefix has been
    consumed, none of the bytes after it has. *)
Theorem read_varint_truncated (base end_ : Z) (pre rest v : list byte) :
  0 < end_ < 2 ^ 64 ->
  8 <= base -> base + len (pre ++ xff :: rest) < 2 ^ 64 ->
  (length rest < 8)%nat ->
  read_varint base v end_ end_ = (Thrown read_exception, end_) /\
  read_varint base (pre ++ xff :: rest) (base + len (pre ++ xff :: rest)) (base + len pre)
  = (Thrown read_exception, base + len pre + 1).
Proof.
  intros Hn H8 He H. split.
  - apply read_varint_empty. exact Hn.
  - apply read_varint_ff_short; [unfold len; lia | exact H8 | exact He].
Qed.

(** C9: [fd 01 00] decodes to 1, and in general the [0xfd] form decodes to
    the little-endian 16-bit value of its two bytes, with no check that the
    value needed that form. *)
Theorem read_varint_accepts_non_minimal
        (base : Z) (pre : list byte) (b0 b1 : byte) (rest : list byte) :
  0 <= base -> base + len (pre ++ xfd :: b0 :: b1 :: rest) < 2 ^ 64 ->
  decode base [xfd; x01; x00] = (Returned 1, base + 3) /\
  read_varint base (pre ++ xfd :: b0 :: b1 :: rest)
              (base + len (pre ++ xfd :: b0 :: b1 :: rest)) (base + len pre)
  = (Returned (byte_val b0 + 2 ^ 8 * byte_val b1), base + len pre + 3).
Proof.
  intros Hb He. split.
  - assert (H3 : base + 3 < 2 ^ 64).
    { rewrite len_app, !len_cons in He.
      pose proof (len_nonneg pre). pose proof (len_nonneg rest). lia. }
    apply (decode_three_bytes base 1); [lia | exact Hb | exact H3].
  - rewrite read_varint_fd by assumption. cbn [le_value]. do 2 f_equal. lia.
Qed.

(** C10: whatever the argument, the encoding is 1, 3 or 5 bytes long and
    never starts with [0xff]: the test guarding the 9-byte form always
    succeeds on a 32-bit [size]. *)
Theorem varint_never_nine_bytes (arg : Z) :
  (length (varint host arg) = 1 \/ length (varint host arg) = 3
   \/ length (varint host arg) = 5)%nat /\
  hd_error (varint host arg) <> Some xff /\
  (to_uint32 arg <=? 0xffffffff) = true.
Proof.
  pose proof (Z.mod_pos_bound arg (2 ^ 32) ltac:(lia)) as R.
  fold (to_uint32 arg) in R. change (2 ^ 32) with 4294967296 in R.
  rewrite varint_of_uint32. set (v := to_uint32 arg) in *.
  split; [|split; [|apply varint_last_branch_dead]].
  - destruct (Z.lt_ge_cases v 253) as [H1|H1].
    + left. rewrite varint_one_byte by lia. reflexivity.
    + destruct (Z.le_gt_cases v 65535) as [H2|H2].
      * right; left. rewrite varint_three_bytes by lia. reflexivity.
      * right; right. rewrite varint_five_bytes by lia. reflexivity.
  - destruct (Z.lt_ge_cases v 253) as [H1|H1].
    + rewrite varint_one_byte by lia. cbn [hd_error]. intro E.
      injection E as E. apply (f_equal byte_val) in E.
      rewrite byte_val_of, Z.mod_small in E by (change (2 ^ 8) with 256; lia).
      change (byte_val xff) with 255 in E. lia.
    + destruct (Z.le_gt_cases v 65535) as [H2|H2].
      * rewrite varint_three_bytes by lia. cbn [hd_error]. discriminate.
      * rewrite varint_five_bytes by lia. cbn [hd_error]. discriminate.
Qed.


(** ** Writes through pointers *)

Lemma length_splice (buf : list byte) (o : nat) (bs : list byte) :
  (o + length bs <= length buf)%nat -> length (splice buf o bs) = length buf.
Proof.
  intro H. unfold splice. rewrite !length_app, length_firstn, length_skipn. lia.
Qed.

Lemma splice_adjacent (buf : list byte) (o : nat) (a c : list byte) :
  (o + length a + length c <= length buf)%nat ->
  splice (splice buf o a) (o + length a) c = splice buf o (a ++ c).
Proof.
  intro H. unfold splice.
  assert (L : length (firstn o buf) = o) by (rewrite length_firstn; lia).
  rewrite (app_assoc (firstn o buf) a).
  assert (L2 : length (firstn o buf ++ a) = (o + length a)%nat)
    by (rewrite length_app; lia).
  rewrite <- L2 at 1. rewrite firstn_app, Nat.sub_diag, firstn_all, firstn_O, app_nil_r.
  replace (o + length a + length c)%nat with (length (firstn o buf ++ a) + length c)%nat by lia.
  rewrite skipn_app.
  rewrite (skipn_all2 (firstn o buf ++ a)) by lia.
  replace (length (firstn o buf ++ a) + length c - length (firstn o buf ++ a))%nat
    with (length c) by lia.
  rewrite skipn_skipn, length_app, <- !app_assoc. cbn [app].
  do 3 f_equal. f_equal. lia.
Qed.

Lemma splice_all (buf bs : list byte) :
  length bs = length buf -> splice buf 0 bs = bs.
Proof.
  intro H. unfold splice. cbn [firstn app Nat.add].
  rewrite H, skipn_all. apply app_nil_r.
Qed.

Lemma write_ok (buf : list byte) (off : Z) (bs : list byte) :
  0 <= off -> off + len bs <= len buf ->
  write buf off bs = Done (splice buf (Z.to_nat off) bs).
Proof.
  intros H1 H2. unfold write, in_bounds.
  pose proof (len_nonneg bs).
  destruct (Z.leb_spec 0 off); [|lia].
  destruct (Z.leb_spec 0 (len bs)); [|lia].
  destruct (Z.leb_spec (off + len bs) (len buf)); [reflexivity|lia].
Qed.


(** Two writes, the second starting where the first ended, are one write of
    the concatenation; either both stay inside the buffer or both fault. *)
Lemma write_adjacent (buf : list byte) (off : Z) (a c : list byte) :
  (buf' <- write buf off a ;; write buf' (off + len a) c)%run
  = write buf off (a ++ c).
Proof.
  pose proof (len_nonneg a) as Ha. pose proof (len_nonneg c) as Hc.
  unfold write at 1 3. unfold in_bounds. rewrite len_app.
  destruct (Z.leb_spec 0 off) as [P0|P0]; [|reflexivity].
  destruct (Z.leb_spec 0 (len a)) as [P1|P1]; [|lia].
  destruct (Z.leb_spec 0 (len a + len c)) as [P2|P2]; [|lia].
  cbn [andb].
  destruct (Z.leb_spec (off + len a) (len buf)) as [P3|P3].
  - cbn [run_bind]. unfold write, in_bounds.
    assert (L : len (splice buf (Z.to_nat off) a) = len buf)
      by (unfold len in *; rewrite length_splice; lia).
    rewrite L.
    destruct (Z.leb_spec 0 (off + len a)) as [P4|P4]; [|lia].
    destruct (Z.leb_spec 0 (len c)) as [P5|P5]; [|lia].
    cbn [andb].
    destruct (Z.leb_spec (off + len a + len c) (len buf)) as [P6|P6];
      destruct (Z.leb_spec (off + (len a + len c)) (len buf)) as [P7|P7];
      try lia; [|reflexivity].
    f_equal. unfold len in *.
    replace (Z.to_nat (off + Z.of_nat (length a))) with (Z.to_nat off + length a)%nat by lia.
    apply splice_adjacent. lia.
  - cbn [run_bind].
    destruct (Z.leb_spec (off + (len a + len c)) (len buf)) as [P7|P7]; [lia|reflexivity].
Qed.

Lemma write_adjacent_k {A} (buf : list byte) (off off' : Z) (a c : list byte)
      (k : list byte -> run A) :
  off' = off + len a ->
  (buf' <- write buf off a ;; buf'' <- write buf' off' c ;; k buf'')%run
  = (buf'' <- write buf off (a ++ c) ;; k buf'')%run.
Proof.
  intros ->. rewrite <- write_adjacent.
  destruct (write buf off a); reflexivity.
Qed.

Lemma be_bytes_4 (x : Z) :
  be_bytes 4 x = [byte_of (Z.shiftr x 24); byte_of (Z.shiftr x 16);
                  byte_of (Z.shiftr x 8); byte_of x].
Proof.
  unfold be_bytes. cbn [le_bytes rev app].
  rewrite !Z.shiftr_shiftr by lia. reflexivity.
Qed.

Lemma be_bytes_8 (x : Z) :
  be_bytes 8 x = [byte_of (Z.shiftr x 56); byte_of (Z.shiftr x 48);
                  byte_of (Z.shiftr x 40); byte_of (Z.shiftr x 32);
                  byte_of (Z.shiftr x 24); byte_of (Z.shiftr x 16);
                  byte_of (Z.shiftr x 8); byte_of x].
Proof.
  unfold be_bytes. cbn [le_bytes rev app].
  rewrite !Z.shiftr_shiftr by lia. reflexivity.
Qed.

Lemma length_be_bytes (n : nat) (x : Z) : length (be_bytes n x) = n.
Proof. unfold be_bytes. now rewrite length_rev, length_le_bytes. Qed.

Lemma be_bytes_mod (n : nat) (x : Z) :
  be_bytes n (x mod 2 ^ (8 * Z.of_nat n)) = be_bytes n x.
Proof. unfold be_bytes. now rewrite le_bytes_mod. Qed.

(** The stores of [WriteBE32] and [WriteBE64] amount to one write of the
    big-endian bytes. *)
Lemma WriteBE32_write (buf : list byte) (ptr x : Z) :
  WriteBE32 buf ptr x = write buf ptr (be_bytes 4 x).
Proof.
  unfold WriteBE32, store.
  rewrite write_adjacent_k by (unfold len; simpl; lia). cbn [app].
  rewrite write_adjacent_k by (unfold len; simpl; lia). cbn [app].
  replace (ptr + 3) with (ptr + len [byte_of (Z.shiftr x 24); byte_of (Z.shiftr x 16);
                                     byte_of (Z.shiftr x 8)]) by (unfold len; simpl; lia).
  rewrite write_adjacent. cbn [app]. now rewrite be_bytes_4.
Qed.

Lemma WriteBE64_write (buf : list byte) (ptr x : Z) :
  WriteBE64 buf ptr x = write buf ptr (be_bytes 8 x).
Proof.
  unfold WriteBE64, store.
  do 6 (rewrite write_adjacent_k by (unfold len; simpl; lia); cbn [app]).
  replace (ptr + 7) with
    (ptr + len [byte_of (Z.shiftr x 56); byte_of (Z.shiftr x 48);
                byte_of (Z.shiftr x 40); byte_of (Z.shiftr x 32);
                byte_of (Z.shiftr x 24); byte_of (Z.shiftr x 16);
                byte_of (Z.shiftr x 8)]) by (unfold len; simpl; lia).
  rewrite write_adjacent. cbn [app]. now rewrite be_bytes_8.
Qed.

Lemma write_WriteBE32 (buf : list byte) (off ptr x : Z) (a : list byte) :
  ptr = off + len a ->
  (buf' <- write buf off a ;; WriteBE32 buf' ptr x)%run
  = write buf off (a ++ be_bytes 4 x).
Proof.
  intros ->. rewrite <- write_adjacent.
  destruct (write buf off a); cbn [run_bind]; [apply WriteBE32_write | reflexivity].
Qed.

Lemma write_WriteBE32_k {A} (buf : list byte) (off ptr x : Z) (a : list byte)
      (k : list byte -> run A) :
  ptr = off + len a ->
  (buf' <- write buf off a ;; buf'' <- WriteBE32 buf' ptr x ;; k buf'')%run
  = (buf'' <- write buf off (a ++ be_bytes 4 x) ;; k buf'')%run.
Proof.
  intros ->. rewrite <- write_adjacent.
  destruct (write buf off a); cbn [run_bind]; [now rewrite WriteBE32_write | reflexivity].
Qed.

Lemma write_WriteBE64 (buf : list byte) (off ptr x : Z) (a : list byte) :
  ptr = off + len a ->
  (buf' <- write buf off a ;; WriteBE64 buf' ptr x)%run
  = write buf off (a ++ be_bytes 8 x).
Proof.
  intros ->. rewrite <- write_adjacent.
  destruct (write buf off a); cbn [run_bind]; [apply WriteBE64_write | reflexivity].
Qed.

Lemma len_be_bytes (n : nat) (x : Z) : len (be_bytes n x) = Z.of_nat n.
Proof. unfold len. now rewrite length_be_bytes. Qed.

Lemma len_repeat (b : byte) (n : nat) : len (repeat b n) = Z.of_nat n.
Proof. unfold len. now rewrite repeat_length. Qed.

Lemma len_digest_bytes (state : sha_state) : len (digest_bytes state) = 32.
Proof.
  unfold digest_bytes. rewrite !len_app, !len_be_bytes. reflexivity.
Qed.

Lemma sha256_done_write (buf : list byte) (res : Z) (state : sha_state) :
  sha256_done buf res state = write buf res (digest_bytes state).
Proof.
  unfold sha256_done, digest_bytes. rewrite WriteBE32_write.
  do 6 (rewrite write_WriteBE32_k by (rewrite ?len_app, !len_be_bytes; lia)).
  rewrite write_WriteBE32 by (rewrite ?len_app, !len_be_bytes; lia).
  rewrite <- !app_assoc. reflexivity.
Qed.


Lemma read_prefix (src : list byte) (n : Z) :
  0 <= n <= len src -> read src 0 n = Done (firstn (Z.to_nat n) src).
Proof.
  intro H. unfold read, in_bounds.
  destruct (Z.leb_spec 0 n) as [P1|P1]; [|lia].
  destruct (Z.leb_spec (0 + n) (len src)) as [P2|P2]; [|lia].
  reflexivity.
Qed.

Lemma read_all (src : list byte) (n : Z) : len src = n -> read src 0 n = Done src.
Proof.
  intro H. pose proof (len_nonneg src). rewrite read_prefix by lia.
  f_equal. apply firstn_all2. unfold len in H. lia.
Qed.

Lemma len_firstn (src : list byte) (n : Z) :
  0 <= n <= len src -> len (firstn (Z.to_nat n) src) = n.
Proof. unfold len. intro H. rewrite length_firstn. lia. Qed.

Lemma write_whole (buf bs : list byte) : len bs = len buf -> write buf 0 bs = Done bs.
Proof.
  intro H. rewrite write_ok by lia. f_equal.
  apply splice_all. unfold len in H. lia.
Qed.

(** ** Padding *)

Lemma pad_count_eq (byte_count : Z) :
  pad_count byte_count = 1 + (119 - byte_count mod 64) mod 64.
Proof.
  unfold pad_count, to_uint64.
  pose proof (Z.mod_pos_bound byte_count 64 ltac:(lia)) as R.
  rewrite (Z.mod_small (119 - byte_count mod 64)) by lia.
  pose proof (Z.mod_pos_bound (119 - byte_count mod 64) 64 ltac:(lia)) as R'.
  apply Z.mod_small. lia.
Qed.

Lemma pad_count_spec (byte_count : Z) :
  1 <= pad_count byte_count <= 64 /\
  (byte_count + pad_count byte_count) mod 64 = 56.
Proof.
  rewrite pad_count_eq. Z.div_mod_to_equations. lia.
Qed.

Lemma padded_size_mod (byte_count : Z) : padded_size byte_count mod 64 = 0.
Proof.
  unfold padded_size, to_uint64.
  pose proof (pad_count_spec byte_count) as [_ H].
  change (2 ^ 64) with 18446744073709551616.
  Z.div_mod_to_equations. lia.
Qed.

Lemma padded_size_eq (byte_count : Z) :
  0 <= byte_count <= 2 ^ 64 - 73 ->
  padded_size byte_count = byte_count + pad_count byte_count + 8.
Proof.
  intro H. unfold padded_size, to_uint64.
  pose proof (pad_count_spec byte_count) as [B M].
  change (2 ^ 64) with 18446744073709551616 in *.
  assert (byte_count + pad_count byte_count + 8 < 18446744073709551616)
    by (Z.div_mod_to_equations; lia).
  rewrite (Z.mod_small (byte_count + pad_count byte_count)) by lia.
  apply Z.mod_small. lia.
Qed.

(** The assertion [(byte_count + pad_count + 8) % 64 == 0] holds for every
    64-bit [byte_count]. *)
Lemma padded_size_assert (byte_count : Z) :
  assert (padded_size byte_count mod 64 =? 0) = Done tt.
Proof. rewrite padded_size_mod. reflexivity. Qed.

(** ** The blocks handed to the compression routine *)

Lemma second_pass_data_write (data : list byte) (state : sha_state) :
  second_pass_data data state
  = write data 0 (digest_bytes state ++ [x80] ++ repeat x00 23 ++ be_bytes 8 256).
Proof.
  unfold second_pass_data, store, memset. rewrite sha256_done_write.
  rewrite write_adjacent_k by (rewrite len_digest_bytes; reflexivity).
  rewrite write_adjacent_k by (rewrite len_app, len_digest_bytes; reflexivity).
  rewrite write_WriteBE64
    by (rewrite !len_app, len_digest_bytes, len_repeat; reflexivity).
  rewrite <- !app_assoc. reflexivity.
Qed.

Lemma second_pass_data_ok (data : list byte) (state : sha_state) :
  64 <= len data ->
  second_pass_data data state
  = Done (digest_bytes state ++ [x80] ++ repeat x00 23 ++ be_bytes 8 256
          ++ skipn 64 data).
Proof.
  intro H. rewrite second_pass_data_write.
  assert (L : len (digest_bytes state ++ [x80] ++ repeat x00 23 ++ be_bytes 8 256) = 64)
    by (rewrite !len_app, len_digest_bytes, len_repeat, len_be_bytes; reflexivity).
  rewrite write_ok by lia. reflexivity.
Qed.

Lemma two_inputs_data_ok (data0 a b : list byte) :
  len a = 32 -> len b = 32 -> len data0 = 128 ->
  two_inputs_data data0 a b
  = Done (a ++ b ++ [x80] ++ repeat x00 55 ++ be_bytes 8 512).
Proof.
  intros Ha Hb H0. unfold two_inputs_data, memcpy, store, memset.
  rewrite !read_all by assumption. cbn [run_bind].
  rewrite write_adjacent_k by lia.
  rewrite write_adjacent_k by (rewrite len_app; lia).
  rewrite write_adjacent_k by (rewrite !len_app; unfold len at 3; simpl; lia).
  rewrite write_WriteBE64
    by (rewrite !len_app, len_repeat; unfold len at 3; simpl; lia).
  rewrite <- !app_assoc.
  apply write_whole.
  rewrite !len_app, len_repeat, len_be_bytes, Ha, Hb, H0. reflexivity.
Qed.

Lemma first_pass_data_ok (input : list byte) (byte_count : Z) :
  0 <= byte_count <= 2 ^ 64 - 73 -> byte_count <= len input ->
  first_pass_data input byte_count
  = Done (firstn (Z.to_nat byte_count) input ++ [x80]
          ++ repeat x00 (Z.to_nat (pad_count byte_count - 1))
          ++ be_bytes 8 (8 * byte_count)).
Proof.
  intros H Hi. unfold first_pass_data, memcpy, store, memset. cbv zeta.
  pose proof (pad_count_spec byte_count) as [B M].
  change (2 ^ 64) with 18446744073709551616 in H.
  rewrite padded_size_eq by (change (2 ^ 64) with 18446744073709551616; lia).
  rewrite read_prefix by lia. cbn [run_bind].
  rewrite !to_uint64_small by (change (2 ^ 64) with 18446744073709551616; lia).
  rewrite write_adjacent_k by (rewrite len_firstn; lia).
  rewrite write_adjacent_k by (rewrite len_app, len_firstn by lia; reflexivity).
  rewrite write_WriteBE64
    by (rewrite !len_app, len_firstn, len_repeat by lia; unfold len; simpl; lia).
  rewrite <- !app_assoc.
  unfold uint64_shl, to_uint64. rewrite Z.shiftl_mul_pow2 by lia.
  change (2 ^ 64) with (2 ^ (8 * Z.of_nat 8)). rewrite be_bytes_mod.
  replace (byte_count * 2 ^ 3) with (8 * byte_count) by lia.
  apply write_whole.
  rewrite !len_app, len_firstn, len_repeat, len_be_bytes by lia.
  unfold vector. rewrite len_repeat. unfold len. simpl length. lia.
Qed.


(** ** Double SHA-256 *)

Lemma sha256_done_fresh (state : sha_state) :
  sha256_done (vector 32) 0 state = Done (digest_bytes state).
Proof.
  rewrite sha256_done_write. apply write_whole.
  rewrite len_digest_bytes. reflexivity.
Qed.

Lemma second_hash_ok (h : CSHA256) :
  second_hash (CSHA256_Finalize h)
  = Done (fst (CSHA256_Finalize
                 (CSHA256_Write (CSHA256_Reset (snd (CSHA256_Finalize h)))
                                (fst (CSHA256_Finalize h))))).
Proof.
  unfold second_hash. rewrite read_all; [reflexivity|].
  unfold len. now rewrite Finalize_size.
Qed.

(** Whenever [double_sha256] gets to its end it has stored 32 bytes. *)
Lemma double_sha256_len (input : list byte) (byte_count : Z) (res : list byte) :
  double_sha256 input byte_count = Done res -> len res = 32.
Proof.
  unfold double_sha256. destruct cfg.
  - destruct (byte_count =? 0).
    + cbn [run_bind]. rewrite second_hash_ok. intros [= <-].
      unfold len. now rewrite Finalize_size.
    + destruct (read input 0 byte_count); cbn [run_bind]; [|discriminate].
      rewrite second_hash_ok. intros [= <-].
      unfold len. now rewrite Finalize_size.
  - destruct (first_pass_data input byte_count); cbn [run_bind]; [|discriminate].
    destruct (assert (padded_size byte_count mod 64 =? 0)); cbn [run_bind]; [|discriminate].
    destruct (second_pass_data _ _); cbn [run_bind]; [|discriminate].
    rewrite sha256_done_fresh. intros [= <-]. apply len_digest_bytes.
Qed.

(** [double_sha256] gets to its end on every input that holds [byte_count]
    bytes, as long as the size of the padded buffer fits in 64 bits. *)
Lemma double_sha256_total (input : list byte) (byte_count : Z) :
  0 <= byte_count <= 2 ^ 64 - 73 -> byte_count <= len input ->
  exists res, double_sha256 input byte_count = Done res /\ len res = 32.
Proof.
  intros H Hi.
  assert (E : exists res, double_sha256 input byte_count = Done res).
  { unfold double_sha256. destruct cfg.
    - rewrite read_prefix by lia. cbn [run_bind].
      destruct (byte_count =? 0); cbn [run_bind]; rewrite second_hash_ok; eauto.
    - rewrite first_pass_data_ok by assumption. cbn [run_bind].
      rewrite padded_size_assert. cbn [run_bind].
      rewrite second_pass_data_ok.
      + cbn [run_bind]. rewrite sha256_done_fresh. eauto.
      + pose proof (pad_count_spec byte_count) as [B M].
        rewrite !len_app, len_firstn, len_repeat, len_be_bytes by lia.
        unfold len. simpl length. Z.div_mod_to_equations. lia. }
  destruct E as [res E]. exists res. split; [exact E|].
  now apply double_sha256_len in E.
Qed.

(** C4: on two 32-byte inputs the fast path gives what the general path
    gives on their concatenation, and that is a 32-byte digest.  This holds in
    both configurations, for any block routine [SHA256] and any hash class
    meeting [CSHA256_api], and whatever the array [data] of the fast path
    held before. *)
Theorem double_sha256_two_32_inputs_agrees (data0 a b : list byte) :
  len a = 32 -> len b = 32 -> len data0 = 128 ->
  double_sha256_two_32_inputs data0 a b = double_sha256 (a ++ b) 64 /\
  exists digest, double_sha256 (a ++ b) 64 = Done digest /\ len digest = 32.
Proof.
  intros Ha Hb H0. split.
  - unfold double_sha256_two_32_inputs, double_sha256. destruct cfg.
    + rewrite !read_all by (rewrite ?len_app; lia).
      change (64 =? 0) with false. cbn [run_bind].
      now rewrite Write_Write.
    + rewrite two_inputs_data_ok by assumption.
      rewrite first_pass_data_ok by (rewrite ?len_app; change (2 ^ 64) with 18446744073709551616; lia).
      rewrite firstn_all2 by (unfold len in *; rewrite length_app; lia).
      change (padded_size 64) with 128. change (pad_count 64) with 56.
      change (Z.to_nat (56 - 1)) with 55%nat. change (8 * 64) with 512.
      change (128 mod 64 =? 0) with true. change (128 / 64) with 2.
      rewrite <- !app_assoc. reflexivity.
  - apply double_sha256_total; [change (2 ^ 64) with 18446744073709551616; lia|].
    rewrite len_app. lia.
Qed.

(** C8.  For every input, which like every object holds at most [max_size]
    bytes, and every [byte_count] of its bytes, zero included, the first-pass
    buffer is the data, one [0x80] byte, [pad_count - 1] zero bytes and the
    bit length as 8 big-endian bytes (a bit length below [2^64] is stored
    whole); [pad_count] is between 1 and 64 and brings the length to 56
    modulo 64; the size of the buffer is [byte_count + pad_count + 8], a
    positive multiple of 64.  The second-pass block is the 32-byte digest,
    [0x80], 23 zero bytes and the bit length 256.  The assertion holds for
    every 64-bit [byte_count]. *)
Theorem sha256_padding (input : list byte) (byte_count : Z) :
  0 <= byte_count <= len input -> len input <= max_size ->
  let pad := pad_count byte_count in
  let data := firstn (Z.to_nat byte_count) input ++ [x80]
              ++ repeat x00 (Z.to_nat (pad - 1)) ++ be_bytes 8 (8 * byte_count) in
  first_pass_data input byte_count = Done data /\
  (8 * byte_count < 2 ^ 64 -> be_value (be_bytes 8 (8 * byte_count)) = 8 * byte_count) /\
  1 <= pad <= 64 /\
  (byte_count + pad) mod 64 = 56 /\
  len data = padded_size byte_count /\
  padded_size byte_count = byte_count + pad + 8 /\
  0 < padded_size byte_count /\
  padded_size byte_count mod 64 = 0 /\
  (forall n, assert (padded_size n mod 64 =? 0) = Done tt) /\
  (forall state,
     second_pass_data data state
     = Done (digest_bytes state ++ [x80] ++ repeat x00 23 ++ be_bytes 8 (8 * 32)
             ++ skipn 64 data)).
Proof using.
  intros Hi Hm pad data.
  assert (H : 0 <= byte_count <= 2 ^ 64 - 73)
    by (unfold max_size in Hm; lia).
  pose proof (pad_count_spec byte_count) as [B M].
  pose proof (padded_size_eq byte_count H) as E.
  pose proof (padded_size_mod byte_count) as Z0.
  assert (L : len data = padded_size byte_count).
  { unfold data, pad. rewrite !len_app, len_firstn, len_repeat, len_be_bytes by lia.
    unfold len. simpl length. lia. }
  split; [apply first_pass_data_ok; [exact H | lia]|].
  split.
  { intro F. unfold be_value, be_bytes. rewrite rev_involutive, le_value_le_bytes.
    apply Z.mod_small. change (2 ^ (8 * Z.of_nat 8)) with (2 ^ 64). lia. }
  split; [exact B|]. split; [exact M|]. split; [exact L|]. split; [exact E|].
  split; [rewrite E; lia|]. split; [exact Z0|].
  split; [intro n; apply padded_size_assert|].
  intro state. apply second_pass_data_ok.
  rewrite L, E. clear - B M H. Z.div_mod_to_equations. lia.
Qed.

(** ** The message header *)


(** The four writes into the header, in the order the code makes them: the
    command field is cleared, the command and its terminator are copied, then
    the length and the magic are stored.  With at most 12 characters the
    terminator falls at worst on the first byte of the length field, which is
    written afterwards. *)
Lemma header_writes (hdr cs l4 magic : list byte) :
  length hdr = 24%nat -> (length cs <= 12)%nat ->
  length l4 = 4%nat -> length magic = 4%nat ->
  splice (splice (splice (splice hdr 4 (repeat x00 12)) 4 (cs ++ [x00])) 16 l4) 0 magic
  = magic ++ (cs ++ repeat x00 (12 - length cs)) ++ l4 ++ skipn 20 hdr.
Proof.
  intros Hh Hc Hl Hm.
  explode hdr Hh. explode l4 Hl. explode magic Hm.
  do 13 (destruct cs as [|? cs]; [reflexivity|]).
  exfalso. simpl in Hc. lia.
Qed.


Lemma write_prefix (hdr payload : list byte) (off : Z) (bs : list byte) :
  0 <= off -> off + len bs <= len hdr ->
  write (hdr ++ payload) off bs = Done (splice hdr (Z.to_nat off) bs ++ payload).
Proof.
  intros H0 H1. pose proof (len_nonneg payload).
  rewrite write_ok by (rewrite ?len_app; lia). f_equal.
  unfold splice, len in *.
  rewrite firstn_app, skipn_app.
  replace (Z.to_nat off - length hdr)%nat with 0%nat by lia.
  replace (Z.to_nat off + length bs - length hdr)%nat with 0%nat by lia.
  cbn [firstn skipn]. rewrite app_nil_r, <- !app_assoc. reflexivity.
Qed.

Lemma splice_field (x y z bs : list byte) :
  length bs = length y -> splice (x ++ y ++ z) (length x) bs = x ++ bs ++ z.
Proof.
  intro H. unfold splice.
  rewrite firstn_app, Nat.sub_diag, firstn_all, firstn_O, app_nil_r.
  rewrite skipn_app, skipn_all2 by lia.
  replace (length x + length bs - length x)%nat with (length y) by lia.
  rewrite skipn_app, skipn_all, Nat.sub_diag. reflexivity.
Qed.

Lemma length_object_bytes (n : nat) (x : Z) : length (object_bytes host n x) = n.
Proof. destruct host; [apply length_le_bytes | apply length_be_bytes]. Qed.

(** What [prepare_message] leaves in the buffer, in terms of what
    [double_sha256] stores for the payload. *)
Lemma prepare_message_eq (command headerAndData : list byte) (datalen : Z) :
  strlen command <= 12 -> sizeof_header <= len headerAndData ->
  prepare_message command headerAndData datalen
  = (fullhash <- double_sha256 (skipn 24 headerAndData) (to_uint64 datalen) ;;
     Done (object_bytes host 4 (to_uint32 BITCOIN_MAGIC)
           ++ (c_str command ++ repeat x00 (12 - length (c_str command)))
           ++ le_bytes 4 datalen
           ++ firstn 4 fullhash
           ++ skipn 24 headerAndData))%run.
Proof.
  unfold strlen, sizeof_header. intros Hc Hb.
  set (payload := skipn 24 headerAndData).
  assert (Hh : length (firstn 24 headerAndData) = 24%nat)
    by (rewrite length_firstn; unfold len in Hb; lia).
  rewrite <- (firstn_skipn 24 headerAndData) at 1. fold payload.
  set (hdr := firstn 24 headerAndData) in *.
  set (magic := object_bytes host 4 (to_uint32 BITCOIN_MAGIC)).
  assert (Hm : length magic = 4%nat) by apply length_object_bytes.
  unfold prepare_message, memset, strcpy, memcpy,
    offsetof_command, sizeof_command, offsetof_length, offsetof_magic,
    offsetof_checksum, sizeof_checksum, sizeof_header.
  rewrite object_bytes_htole. fold magic.
  unfold to_uint32. change (2 ^ 32) with (2 ^ (8 * Z.of_nat 4)). rewrite le_bytes_mod.
  change (Z.to_nat 12) with 12%nat. change (Z.to_nat 24) with 24%nat.
  assert (Lc : (length (c_str command ++ [x00]) <= 13)%nat)
    by (rewrite length_app; unfold len in Hc; cbn [length]; lia).
  assert (L1 : length (splice hdr 4 (repeat x00 12)) = 24%nat)
    by (rewrite length_splice; rewrite ?repeat_length; lia).
  assert (L2 : length (splice (splice hdr 4 (repeat x00 12)) 4 (c_str command ++ [x00]))
               = 24%nat)
    by (rewrite length_splice; lia).
  assert (L3 : length (splice (splice (splice hdr 4 (repeat x00 12)) 4
                                      (c_str command ++ [x00])) 16 (le_bytes 4 datalen))
               = 24%nat)
    by (rewrite length_splice; rewrite ?length_le_bytes; lia).
  rewrite write_prefix by (unfold len; rewrite ?repeat_length; lia).
  cbn [run_bind]. change (Z.to_nat 4) with 4%nat.
  rewrite write_prefix by (unfold len; lia).
  cbn [run_bind]. change (Z.to_nat 4) with 4%nat.
  rewrite write_prefix by (unfold len; rewrite ?length_le_bytes; lia).
  cbn [run_bind]. change (Z.to_nat 16) with 16%nat.
  rewrite write_prefix by (unfold len; lia).
  cbn [run_bind]. change (Z.to_nat 0) with 0%nat.
  rewrite header_writes
    by (try assumption; try apply length_le_bytes; unfold len in Hc; lia).
  set (cmd := c_str command ++ repeat x00 (12 - length (c_str command))).
  assert (Hcmd : length cmd = 12%nat)
    by (unfold cmd; rewrite length_app, repeat_length; unfold len in Hc; lia).
  assert (Hk : length (skipn 20 hdr) = 4%nat) by (rewrite length_skipn; lia).
  set (rest := skipn 20 hdr) in *.
  replace (skipn 24 ((magic ++ cmd ++ le_bytes 4 datalen ++ rest) ++ payload))
    with payload.
  2:{ rewrite skipn_app, skipn_all2
        by (rewrite !length_app, length_le_bytes; lia).
      rewrite !length_app, length_le_bytes, Hm, Hcmd, Hk. reflexivity. }
  destruct (double_sha256 payload (to_uint64 datalen)) as [fullhash|f] eqn:E;
    cbn [run_bind]; [|reflexivity].
  apply double_sha256_len in E.
  rewrite read_prefix by lia. cbn [run_bind].
  change (Z.to_nat 4) with 4%nat.
  assert (Hf : length (firstn 4 fullhash) = 4%nat)
    by (rewrite length_firstn; unfold len in E; lia).
  rewrite write_ok
    by (unfold len; rewrite ?length_app, ?length_le_bytes, ?Hf, ?Hm, ?Hcmd, ?Hk; lia).
  f_equal. change (Z.to_nat 20) with 20%nat.
  replace ((magic ++ cmd ++ le_bytes 4 datalen ++ rest) ++ payload)
    with ((magic ++ cmd ++ le_bytes 4 datalen) ++ rest ++ payload)
    by (rewrite <- !app_assoc; reflexivity).
  replace 20%nat with (length (magic ++ cmd ++ le_bytes 4 datalen))
    by (rewrite !length_app, length_le_bytes, Hm, Hcmd; reflexivity).
  rewrite splice_field by lia.
  rewrite <- !app_assoc. reflexivity.
Qed.


Lemma fields_of_header (m c l k p : list byte) :
  length m = 4%nat -> length c = 12%nat -> length l = 4%nat -> length k = 4%nat ->
  field_magic (m ++ c ++ l ++ k ++ p) = m /\
  field_command (m ++ c ++ l ++ k ++ p) = c /\
  field_length (m ++ c ++ l ++ k ++ p) = l /\
  field_checksum (m ++ c ++ l ++ k ++ p) = k /\
  skipn 24 (m ++ c ++ l ++ k ++ p) = p.
Proof.
  intros Hm Hc Hl Hk.
  explode m Hm. explode c Hc. explode l Hl. explode k Hk.
  repeat split.
Qed.

Lemma no_failure_bind {A B} (m : run A) (k : A -> run B) :
  reports_no_failure m -> (forall a, reports_no_failure (k a)) ->
  reports_no_failure (run_bind m k).
Proof.
  intros Hm Hk f. destruct m as [a|e]; cbn [run_bind].
  - apply Hk.
  - intros [= <-]. now apply Hm.
Qed.

Lemma no_failure_Done {A} (a : A) : reports_no_failure (Done a).
Proof. intros f H. discriminate H. Qed.

Lemma no_failure_write (buf : list byte) (off : Z) (bs : list byte) :
  reports_no_failure (write buf off bs).
Proof.
  intros f. unfold write. destruct (in_bounds buf off (len bs)); congruence.
Qed.

Lemma no_failure_read (buf : list byte) (off n : Z) :
  reports_no_failure (read buf off n).
Proof.
  intros f. unfold read. destruct (in_bounds buf off n); congruence.
Qed.

Lemma no_failure_memcpy (dst : list byte) (off : Z) (src : list byte) (n : Z) :
  reports_no_failure (memcpy dst off src n).
Proof.
  unfold memcpy. apply no_failure_bind; [apply no_failure_read|].
  intro. apply no_failure_write.
Qed.

Lemma no_failure_double_sha256 (input : list byte) (byte_count : Z) :
  reports_no_failure (double_sha256 input byte_count).
Proof.
  unfold double_sha256. destruct cfg.
  - apply no_failure_bind.
    + destruct (byte_count =? 0); [apply no_failure_Done|].
      apply no_failure_bind; [apply no_failure_read | intro; apply no_failure_Done].
    + intro h. rewrite second_hash_ok. apply no_failure_Done.
  - apply no_failure_bind.
    + unfold first_pass_data, store, memset. cbv zeta.
      apply no_failure_bind; [apply no_failure_memcpy|]. intro.
      apply no_failure_bind; [apply no_failure_write|]. intro.
      apply no_failure_bind; [apply no_failure_write|]. intro.
      rewrite WriteBE64_write. apply no_failure_write.
    + intro data. rewrite padded_size_assert. cbn [run_bind].
      apply no_failure_bind.
      * rewrite second_pass_data_write. apply no_failure_write.
      * intro. rewrite sha256_done_write. apply no_failure_write.
Qed.

Lemma no_failure_prepare_message (command headerAndData : list byte) (datalen : Z) :
  reports_no_failure (prepare_message command headerAndData datalen).
Proof.
  unfold prepare_message, memset, strcpy.
  apply no_failure_bind; [apply no_failure_write|]. intro.
  apply no_failure_bind; [apply no_failure_write|]. intro.
  apply no_failure_bind; [apply no_failure_write|]. intro.
  apply no_failure_bind; [apply no_failure_write|]. intro.
  apply no_failure_bind; [apply no_failure_double_sha256|]. intro.
  apply no_failure_memcpy.
Qed.

(** [prepare_message] on a command of at most 12 characters and a buffer
    that holds the header and [datalen] bytes of payload. *)
Lemma prepare_message_done (command headerAndData : list byte) (datalen : Z) :
  strlen command <= 12 -> sizeof_header <= len headerAndData ->
  0 <= datalen <= 2 ^ 64 - 73 -> datalen <= len (skipn 24 headerAndData) ->
  exists fullhash,
    double_sha256 (skipn 24 headerAndData) datalen = Done fullhash /\
    len fullhash = 32 /\
    prepare_message command headerAndData datalen
    = Done (object_bytes host 4 (to_uint32 BITCOIN_MAGIC)
            ++ (c_str command ++ repeat x00 (12 - length (c_str command)))
            ++ le_bytes 4 datalen
            ++ firstn 4 fullhash
            ++ skipn 24 headerAndData).
Proof.
  intros Hc Hb Hd Hp.
  destruct (double_sha256_total (skipn 24 headerAndData) datalen Hd Hp) as [h [E L]].
  exists h. split; [exact E|]. split; [exact L|].
  rewrite prepare_message_eq by assumption.
  rewrite to_uint64_small by (change (2 ^ 64) with 18446744073709551616 in *; lia).
  rewrite E. reflexivity.
Qed.


Lemma prepare_message_fields (command headerAndData : list byte) (datalen : Z) :
  strlen command <= 12 -> sizeof_header <= len headerAndData ->
  0 <= datalen <= 2 ^ 64 - 73 -> datalen <= len (skipn 24 headerAndData) ->
  exists fullhash out,
    double_sha256 (skipn 24 headerAndData) datalen = Done fullhash /\
    prepare_message command headerAndData datalen = Done out /\
    field_magic out = object_bytes host 4 (to_uint32 BITCOIN_MAGIC) /\
    field_command out = c_str command ++ repeat x00 (12 - length (c_str command)) /\
    field_length out = le_bytes 4 datalen /\
    field_checksum out = firstn 4 fullhash /\
    skipn 24 out = skipn 24 headerAndData.
Proof.
  intros Hc Hb Hd Hp.
  destruct (prepare_message_done command headerAndData datalen Hc Hb Hd Hp)
    as [h [E [L P]]].
  exists h. eexists. split; [exact E|]. split; [exact P|].
  apply fields_of_header.
  - apply length_object_bytes.
  - rewrite length_app, repeat_length. unfold strlen, len in Hc. lia.
  - apply length_le_bytes.
  - rewrite length_firstn. unfold len in L. lia.
Qed.

(** C5, as amended.  For a command of at most 12 characters, what
    [prepare_message] leaves in the buffer is the magic, the command padded
    with zero bytes to 12 bytes, the low four bytes of [datalen] least
    significant first, the first four bytes stored by [double_sha256] on the
    payload, and the payload untouched; it gets there whenever the payload
    holds [datalen] bytes.  The length field reads back as [datalen] modulo
    [2^32]: as the byte count of the payload for every payload of at most
    [2^32 - 1] bytes. *)
Theorem prepare_message_header (command headerAndData : list byte) (datalen : Z) :
  strlen command <= 12 -> sizeof_header <= len headerAndData ->
  let payload := skipn 24 headerAndData in
  prepare_message command headerAndData datalen
  = (fullhash <- double_sha256 payload (to_uint64 datalen) ;;
     Done (object_bytes host 4 (to_uint32 BITCOIN_MAGIC)
           ++ (c_str command ++ repeat x00 (12 - length (c_str command)))
           ++ le_bytes 4 datalen
           ++ firstn 4 fullhash
           ++ payload))%run
  /\ (0 <= datalen <= 2 ^ 64 - 73 -> datalen <= len payload ->
      exists fullhash out,
        double_sha256 payload datalen = Done fullhash /\
        prepare_message command headerAndData datalen = Done out /\
        field_magic out = object_bytes host 4 (to_uint32 BITCOIN_MAGIC) /\
        field_command out = c_str command ++ repeat x00 (12 - length (c_str command)) /\
        field_length out = le_bytes 4 datalen /\
        le_value (field_length out) = datalen mod 2 ^ 32 /\
        (datalen <= 2 ^ 32 - 1 -> le_value (field_length out) = datalen) /\
        field_checksum out = firstn 4 fullhash /\
        skipn 24 out = payload)
  /\ (0 <= datalen < 2 ^ 32 -> le_value (le_bytes 4 datalen) = datalen).
Proof.
  intros Hc Hb payload. split; [|split].
  - now apply prepare_message_eq.
  - intros Hd Hp.
    destruct (prepare_message_fields command headerAndData datalen Hc Hb Hd Hp)
      as (h & out & D & P & M & C & L & K & S).
    exists h, out. split; [exact D|]. split; [exact P|]. split; [exact M|].
    split; [exact C|]. split; [exact L|].
    assert (V : le_value (field_length out) = datalen mod 2 ^ 32).
    { rewrite L, le_value_le_bytes. reflexivity. }
    split; [exact V|].
    split; [intro Hs; rewrite V; apply Z.mod_small; lia|].
    split; [exact K | exact S].
  - intro Hd. rewrite le_value_le_bytes. apply Z.mod_small.
    change (2 ^ (8 * Z.of_nat 4)) with (2 ^ 32). exact Hd.
Qed.

(** C6, as amended.  A command of at most 12 characters is accepted and
    fills the command field followed by zero bytes up to 12 bytes.  No
    failure is reported for any command: the routine checks no length and
    its only way not to return is an access outside the buffer. *)
Theorem prepare_message_pads_command (command headerAndData : list byte) (datalen : Z) :
  strlen command <= 12 -> sizeof_header <= len headerAndData ->
  0 <= datalen <= 2 ^ 64 - 73 -> datalen <= len (skipn 24 headerAndData) ->
  (exists out,
     prepare_message command headerAndData datalen = Done out /\
     field_command out = c_str command ++ repeat x00 (Z.to_nat (12 - strlen command)) /\
     len (field_command out) = 12) /\
  (forall c b d, reports_no_failure (prepare_message c b d)).
Proof.
  intros Hc Hb Hd Hp. split; [|intros; apply no_failure_prepare_message].
  destruct (prepare_message_fields command headerAndData datalen Hc Hb Hd Hp)
    as [h [out [_ [P [_ [C _]]]]]].
  exists out. split; [exact P|].
  replace (Z.to_nat (12 - strlen command)) with (12 - length (c_str command))%nat
    by (unfold strlen, len in *; lia).
  split; [exact C|].
  rewrite C. rewrite len_app, len_repeat. unfold strlen, len in *. lia.
Qed.

(** C7, as amended.  The length field holds the low 32 bits of [datalen],
    least significant byte first: it reads back as [datalen] modulo [2^32],
    which is [datalen] itself for every payload of at most [2^32 - 1] bytes.
    No failure is reported for any [datalen]. *)
Theorem prepare_message_length_field (command headerAndData : list byte) (datalen : Z) :
  strlen command <= 12 -> sizeof_header <= len headerAndData ->
  0 <= datalen <= 2 ^ 64 - 73 -> datalen <= len (skipn 24 headerAndData) ->
  (exists out,
     prepare_message command headerAndData datalen = Done out /\
     field_length out = le_bytes 4 datalen /\
     le_value (field_length out) = datalen mod 2 ^ 32 /\
     (datalen <= 2 ^ 32 - 1 -> le_value (field_length out) = datalen)) /\
  (forall c b d, reports_no_failure (prepare_message c b d)).
Proof.
  intros Hc Hb Hd Hp. split; [|intros; apply no_failure_prepare_message].
  destruct (prepare_message_fields command headerAndData datalen Hc Hb Hd Hp)
    as [h [out [_ [P [_ [_ [L _]]]]]]].
  exists out. split; [exact P|]. split; [exact L|].
  rewrite L, le_value_le_bytes. change (2 ^ (8 * Z.of_nat 4)) with (2 ^ 32).
  split; [reflexivity|]. intro Hs. apply Z.mod_small. lia.
Qed.


(** * Further properties *)

(** ** The varint decoder, branch by branch *)

Lemma lor_range (a b n : Z) :
  0 <= n -> 0 <= a < 2 ^ n -> 0 <= b < 2 ^ n -> 0 <= Z.lor a b < 2 ^ n.
Proof.
  intros Hn Ha Hb. split; [apply Z.lor_nonneg; lia|].
  destruct (Z.eq_dec a 0) as [->|Na]; [rewrite Z.lor_0_l; lia|].
  destruct (Z.eq_dec b 0) as [->|Nb]; [rewrite Z.lor_0_r; lia|].
  assert (Pl : 0 < Z.lor a b).
  { assert (0 <= Z.lor a b) by (apply Z.lor_nonneg; lia).
    assert (Z.lor a b <> 0) by (rewrite Z.lor_eq_0_iff; lia). lia. }
  apply Z.log2_lt_pow2; [exact Pl|].
  rewrite Z.log2_lor by lia.
  apply Z.max_lub_lt; apply Z.log2_lt_pow2; lia.
Qed.

Lemma to_uint64_range (z : Z) : 0 <= to_uint64 z < 2 ^ 64.
Proof. apply Z.mod_pos_bound. lia. Qed.

Lemma uint64_shl_range (a n : Z) : 0 <= uint64_shl a n < 2 ^ 64.
Proof. apply to_uint64_range. Qed.

Lemma deref_range (v : list byte) (p : Z) : 0 <= deref v p < 2 ^ 64.
Proof.
  unfold deref. pose proof (byte_val_range (nth (Z.to_nat p) v x00)) as R.
  change (2 ^ 8) with 256 in R. change (2 ^ 64) with 18446744073709551616. lia.
Qed.


(** X2: a byte below [0xfd] is its own value, and one byte is consumed. *)
Theorem read_varint_single_byte (base : Z) (pre : list byte) (b : byte) (rest : list byte) :
  byte_val b < 0xfd ->
  0 <= base -> base + len (pre ++ b :: rest) < 2 ^ 64 ->
  read_varint base (pre ++ b :: rest) (base + len (pre ++ b :: rest)) (base + len pre)
  = (Returned (byte_val b), base + len pre + 1).
Proof.
  intros H Hb He. pose proof (len_nonneg rest). pose proof (len_nonneg pre).
  rewrite len_app, len_cons in *.
  rewrite read_varint_prefix by lia.
  cbv zeta. destruct (Z.ltb_spec (byte_val b) 253); [reflexivity | lia].
Qed.

Lemma uint64_shl_byte (b : byte) (n : Z) :
  0 <= n <= 56 -> uint64_shl (to_uint64 (byte_val b)) n = byte_val b * 2 ^ n.
Proof.
  intro H. pose proof (byte_val_range b) as R. change (2 ^ 8) with 256 in R.
  unfold uint64_shl. rewrite (to_uint64_small (byte_val b))
    by (change (2 ^ 64) with 18446744073709551616; lia).
  rewrite Z.shiftl_mul_pow2 by lia. apply to_uint64_small.
  assert (0 < 2 ^ n <= 2 ^ 56)
    by (split; [apply Z.pow_pos_nonneg; lia | apply Z.pow_le_mono_r; lia]).
  change (2 ^ 56) with 72057594037927936 in *.
  change (2 ^ 64) with 18446744073709551616. nia.
Qed.

Lemma lor_chain_64 (b7 b6 b5 b4 b3 b2 b1 b0 : Z) :
  0 <= b6 < 2 ^ 8 -> 0 <= b5 < 2 ^ 8 -> 0 <= b4 < 2 ^ 8 -> 0 <= b3 < 2 ^ 8 ->
  0 <= b2 < 2 ^ 8 -> 0 <= b1 < 2 ^ 8 -> 0 <= b0 < 2 ^ 8 ->
  Z.lor (Z.lor (Z.lor (Z.lor (Z.lor (Z.lor (Z.lor
    (b7 * 2 ^ 56) (b6 * 2 ^ 48)) (b5 * 2 ^ 40)) (b4 * 2 ^ 32))
    (b3 * 2 ^ 24)) (b2 * 2 ^ 16)) (b1 * 2 ^ 8)) b0
  = b7 * 2 ^ 56 + b6 * 2 ^ 48 + b5 * 2 ^ 40 + b4 * 2 ^ 32
    + b3 * 2 ^ 24 + b2 * 2 ^ 16 + b1 * 2 ^ 8 + b0.
Proof.
  intros H6 H5 H4 H3 H2 H1 H0.
  rewrite (lor_disjoint_add b7 (b6 * 2 ^ 48) 56) by lia.
  replace (b7 * 2 ^ 56 + b6 * 2 ^ 48) with ((b7 * 2 ^ 8 + b6) * 2 ^ 48) by lia.
  rewrite (lor_disjoint_add _ (b5 * 2 ^ 40) 48) by lia.
  replace ((b7 * 2 ^ 8 + b6) * 2 ^ 48 + b5 * 2 ^ 40)
    with ((b7 * 2 ^ 16 + b6 * 2 ^ 8 + b5) * 2 ^ 40) by lia.
  rewrite (lor_disjoint_add _ (b4 * 2 ^ 32) 40) by lia.
  replace ((b7 * 2 ^ 16 + b6 * 2 ^ 8 + b5) * 2 ^ 40 + b4 * 2 ^ 32)
    with ((b7 * 2 ^ 24 + b6 * 2 ^ 16 + b5 * 2 ^ 8 + b4) * 2 ^ 32) by lia.
  rewrite (lor_disjoint_add _ (b3 * 2 ^ 24) 32) by lia.
  replace ((b7 * 2 ^ 24 + b6 * 2 ^ 16 + b5 * 2 ^ 8 + b4) * 2 ^ 32 + b3 * 2 ^ 24)
    with ((b7 * 2 ^ 32 + b6 * 2 ^ 24 + b5 * 2 ^ 16 + b4 * 2 ^ 8 + b3) * 2 ^ 24) by lia.
  rewrite (lor_chain _ b2 b1 b0) by assumption.
  lia.
Qed.


(** X3: the prefix [0xff] followed by eight bytes gives their little-endian
    64-bit value, and nine bytes are consumed. *)
Theorem read_varint_nine_bytes
        (base : Z) (pre : list byte) (b0 b1 b2 b3 b4 b5 b6 b7 : byte) (rest : list byte) :
  0 <= base ->
  base + len (pre ++ xff :: b0 :: b1 :: b2 :: b3 :: b4 :: b5 :: b6 :: b7 :: rest) < 2 ^ 64 ->
  read_varint base (pre ++ xff :: b0 :: b1 :: b2 :: b3 :: b4 :: b5 :: b6 :: b7 :: rest)
              (base + len (pre ++ xff :: b0 :: b1 :: b2 :: b3 :: b4 :: b5 :: b6 :: b7 :: rest))
              (base + len pre)
  = (Returned (le_value [b0; b1; b2; b3; b4; b5; b6; b7]), base + len pre + 9).
Proof.
  intros Hb He.
  pose proof (len_nonneg rest) as Hr. pose proof (len_nonneg pre) as Hp.
  rewrite len_app, !len_cons in *.
  rewrite read_varint_prefix by lia.
  cbv zeta. change (byte_val xff) with 255.
  change (255 <? 253) with false. change (255 =? 253) with false.
  change (255 =? 254) with false. cbv iota.
  unfold bind at 1. rewrite move_forward_ok by lia.
  unfold bind at 1, get_it at 1.
  set (l := xff :: b0 :: b1 :: b2 :: b3 :: b4 :: b5 :: b6 :: b7 :: rest).
  assert (Ll : len l = 9 + len rest) by (subst l; rewrite !len_cons; lia).
  rewrite (bind_load base pre l 8) by (rewrite ?ptr_add_small; lia).
  rewrite (bind_load base pre l 7) by (rewrite ?ptr_add_small; lia).
  rewrite (bind_load base pre l 6) by (rewrite ?ptr_add_small; lia).
  rewrite (bind_load base pre l 5) by (rewrite ?ptr_add_small; lia).
  rewrite (bind_load base pre l 4) by (rewrite ?ptr_add_small; lia).
  rewrite (bind_load base pre l 3) by (rewrite ?ptr_add_small; lia).
  rewrite (bind_load base pre l 2) by (rewrite ?ptr_add_small; lia).
  rewrite (bind_load base pre l 1) by (rewrite ?ptr_add_small; lia).
  unfold ret. subst l.
  change (deref (xff :: b0 :: b1 :: b2 :: b3 :: b4 :: b5 :: b6 :: b7 :: rest) 8)
    with (byte_val b7).
  change (deref (xff :: b0 :: b1 :: b2 :: b3 :: b4 :: b5 :: b6 :: b7 :: rest) 7)
    with (byte_val b6).
  change (deref (xff :: b0 :: b1 :: b2 :: b3 :: b4 :: b5 :: b6 :: b7 :: rest) 6)
    with (byte_val b5).
  change (deref (xff :: b0 :: b1 :: b2 :: b3 :: b4 :: b5 :: b6 :: b7 :: rest) 5)
    with (byte_val b4).
  change (deref (xff :: b0 :: b1 :: b2 :: b3 :: b4 :: b5 :: b6 :: b7 :: rest) 4)
    with (byte_val b3).
  change (deref (xff :: b0 :: b1 :: b2 :: b3 :: b4 :: b5 :: b6 :: b7 :: rest) 3)
    with (byte_val b2).
  change (deref (xff :: b0 :: b1 :: b2 :: b3 :: b4 :: b5 :: b6 :: b7 :: rest) 2)
    with (byte_val b1).
  change (deref (xff :: b0 :: b1 :: b2 :: b3 :: b4 :: b5 :: b6 :: b7 :: rest) 1)
    with (byte_val b0).
  rewrite !uint64_shl_byte by lia.
  pose proof (byte_val_range b0). pose proof (byte_val_range b1).
  pose proof (byte_val_range b2). pose proof (byte_val_range b3).
  pose proof (byte_val_range b4). pose proof (byte_val_range b5).
  pose proof (byte_val_range b6). pose proof (byte_val_range b7).
  rewrite (to_uint64_small (byte_val b0))
    by (change (2 ^ 8) with 256 in *; change (2 ^ 64) with 18446744073709551616; lia).
  rewrite lor_chain_64 by assumption.
  cbn [le_value]. change (2 ^ 8) with 256 in *.
  f_equal; [f_equal|]; lia.
Qed.

(** X4: the prefix [0xfe] followed by four bytes gives their little-endian
    32-bit value when the last byte is below [0x80], and that value with the
    upper 32 bits all set when it is not; five bytes are consumed. *)
Theorem read_varint_five_bytes_value
        (base : Z) (pre : list byte) (b0 b1 b2 b3 : byte) (rest : list byte) :
  0 <= base -> base + len (pre ++ xfe :: b0 :: b1 :: b2 :: b3 :: rest) < 2 ^ 64 ->
  read_varint base (pre ++ xfe :: b0 :: b1 :: b2 :: b3 :: rest)
              (base + len (pre ++ xfe :: b0 :: b1 :: b2 :: b3 :: rest)) (base + len pre)
  = (Returned (if byte_val b3 <? 0x80
               then le_value [b0; b1; b2; b3]
               else le_value [b0; b1; b2; b3] + (2 ^ 64 - 2 ^ 32)),
     base + len pre + 5).
Proof.
  intros Hb He. destruct (Z.ltb_spec (byte_val b3) 128) as [L|L].
  - now apply read_varint_fe_low.
  - now apply read_varint_fe_high.
Qed.

(** X5: a [0xfd] prefix with fewer than two bytes after it, or a [0xfe]
    prefix with fewer than four, makes [read_varint] throw, and the iterator
    is left one past the prefix. *)
Theorem read_varint_truncated_short_forms (base : Z) (pre rest2 rest4 : list byte) :
  (length rest2 < 2)%nat -> (length rest4 < 4)%nat ->
  8 <= base ->
  base + len (pre ++ xfd :: rest2) < 2 ^ 64 -> base + len (pre ++ xfe :: rest4) < 2 ^ 64 ->
  read_varint base (pre ++ xfd :: rest2) (base + len (pre ++ xfd :: rest2)) (base + len pre)
  = (Thrown read_exception, base + len pre + 1) /\
  read_varint base (pre ++ xfe :: rest4) (base + len (pre ++ xfe :: rest4)) (base + len pre)
  = (Thrown read_exception, base + len pre + 1).
Proof.
  intros H2 H4 H8 He2 He4. split.
  - apply (read_varint_short base pre xfd rest2 2);
      [left; split; reflexivity | unfold len; lia | exact H8 | exact He2].
  - apply (read_varint_short base pre xfe rest4 4);
      [right; left; split; reflexivity | unfold len; lia | exact H8 | exact He4].
Qed.

(** ** Encodings in a stream *)

Lemma read_varint_of_varint (base : Z) (pre rest : list byte) (v : Z) :
  0 <= v < 2 ^ 31 ->
  0 <= base -> base + len (pre ++ varint host v ++ rest) < 2 ^ 64 ->
  read_varint base (pre ++ varint host v ++ rest)
              (base + len (pre ++ varint host v ++ rest)) (base + len pre)
  = (Returned v, base + len pre + len (varint host v)).
Proof.
  intros H Hb. change (2 ^ 31) with 2147483648 in H.
  pose proof (len_nonneg rest) as Nr. pose proof (len_nonneg pre) as Np.
  destruct (Z.lt_ge_cases v 253) as [H1|H1].
  - rewrite varint_one_byte by lia. cbn [app]. intro He.
    rewrite len_app, len_cons in *.
    rewrite read_varint_prefix by lia.
    cbv zeta. rewrite byte_val_of, Z.mod_small by (change (2 ^ 8) with 256; lia).
    destruct (Z.ltb_spec v 253); [| lia].
    change (len [byte_of v]) with 1. reflexivity.
  - destruct (Z.le_gt_cases v 65535) as [H2|H2].
    + rewrite varint_three_bytes by lia. cbn [le_bytes app]. intro He.
      rewrite read_varint_fd by assumption.
      change [byte_of v; byte_of (Z.shiftr v 8)] with (le_bytes 2 v).
      rewrite le_value_le_bytes, Z.mod_small
        by (change (2 ^ (8 * Z.of_nat 2)) with 65536; lia).
      reflexivity.
    + rewrite varint_five_bytes by lia. cbn [le_bytes app]. intro He.
      rewrite read_varint_fe by assumption.
      change [byte_of v; byte_of (Z.shiftr v 8); byte_of (Z.shiftr (Z.shiftr v 8) 8);
              byte_of (Z.shiftr (Z.shiftr (Z.shiftr v 8) 8) 8)] with (le_bytes 4 v).
      rewrite le_value_le_bytes, Z.mod_small
        by (change (2 ^ (8 * Z.of_nat 4)) with 4294967296; lia).
      rewrite to_int_small by lia.
      rewrite to_uint64_small by (change (2 ^ 64) with 18446744073709551616; lia).
      reflexivity.
Qed.

(** X6: an encoding is read back from the middle of a buffer whatever
    follows it, and two encodings in a row are read back one after the other:
    after the first read the iterator stands at the second. *)
Theorem read_varint_twice (base : Z) (pre rest : list byte) (a b : Z) :
  0 <= a < 2 ^ 31 -> 0 <= b < 2 ^ 31 ->
  0 <= base -> base + len (pre ++ varint host a ++ varint host b ++ rest) < 2 ^ 64 ->
  let buf := pre ++ varint host a ++ varint host b ++ rest in
  read_varint base buf (base + len buf) (base + len pre)
  = (Returned a, base + len pre + len (varint host a)) /\
  (x <- read_varint base buf (base + len buf) ;;
   y <- read_varint base buf (base + len buf) ;; ret (x, y))%cursor
    (base + len pre)
  = (Returned (a, b), base + len pre + len (varint host a) + len (varint host b)).
Proof.
  intros Ha Hb H0 He buf.
  assert (E1 : read_varint base buf (base + len buf) (base + len pre)
               = (Returned a, base + len pre + len (varint host a)))
    by (apply read_varint_of_varint; assumption).
  split; [exact E1|].
  unfold bind at 1. rewrite E1.
  unfold bind at 1.
  assert (E2 : read_varint base buf (base + len buf) (base + len pre + len (varint host a))
               = (Returned b, base + len pre + len (varint host a) + len (varint host b))).
  { replace (base + len pre + len (varint host a))
      with (base + len (pre ++ varint host a)) by (rewrite len_app; lia).
    unfold buf in *. rewrite app_assoc in *.
    apply read_varint_of_varint; assumption. }
  rewrite E2. reflexivity.
Qed.

(** ** The varint encoder *)

(** X7: the encoding does not depend on the byte order of the host: the byte
    swap of [htole16] and [htole32] undoes the host's order. *)
Theorem varint_same_on_every_host (arg : Z) :
  varint host arg = varint LittleEndian arg.
Proof.
  unfold varint. cbv zeta.
  rewrite object_bytes_1, !object_bytes_htole. reflexivity.
Qed.

Lemma le_bytes_inj (n : nat) (x y : Z) :
  le_bytes n x = le_bytes n y -> x mod 2 ^ (8 * Z.of_nat n) = y mod 2 ^ (8 * Z.of_nat n).
Proof. intro E. rewrite <- !le_value_le_bytes. now rewrite E. Qed.

Lemma varint_inj_uint32 (x y : Z) :
  0 <= x <= 0xffffffff -> 0 <= y <= 0xffffffff ->
  varint host x = varint host y -> x = y.
Proof.
  intros Hx Hy E.
  assert (L : length (varint host x) = length (varint host y)) by now rewrite E.
  destruct (Z.lt_ge_cases x 253) as [X1|X1];
    [|destruct (Z.le_gt_cases x 65535) as [X2|X2]];
    (destruct (Z.lt_ge_cases y 253) as [Y1|Y1];
     [|destruct (Z.le_gt_cases y 65535) as [Y2|Y2]]);
    rewrite ?(varint_one_byte x), ?(varint_three_bytes x), ?(varint_five_bytes x) in E, L by lia;
    rewrite ?(varint_one_byte y), ?(varint_three_bytes y), ?(varint_five_bytes y) in E, L by lia;
    try discriminate L.
  - injection E as E. apply (f_equal byte_val) in E.
    rewrite !byte_val_of, !Z.mod_small in E by (change (2 ^ 8) with 256; lia). exact E.
  - apply (f_equal (@tl byte)) in E. cbn [tl] in E. apply le_bytes_inj in E.
    rewrite !Z.mod_small in E by (change (2 ^ (8 * Z.of_nat 2)) with 65536; lia). exact E.
  - apply (f_equal (@tl byte)) in E. cbn [tl] in E. apply le_bytes_inj in E.
    rewrite !Z.mod_small in E by (change (2 ^ (8 * Z.of_nat 4)) with 4294967296; lia).
    exact E.
Qed.

(** X8: two arguments have the same encoding only if they are the same
    32-bit value. *)
Theorem varint_injective (x y : Z) :
  varint host x = varint host y -> to_uint32 x = to_uint32 y.
Proof.
  rewrite (varint_of_uint32 x), (varint_of_uint32 y).
  assert (R : forall z, 0 <= to_uint32 z <= 0xffffffff).
  { intro z. unfold to_uint32. pose proof (Z.mod_pos_bound z (2 ^ 32) ltac:(lia)) as B.
    change (2 ^ 32) with 4294967296 in *. lia. }
  apply varint_inj_uint32; apply R.
Qed.


(** ** Big-endian stores *)

Lemma be_value_be_bytes (n : nat) (x : Z) :
  be_value (be_bytes n x) = x mod 2 ^ (8 * Z.of_nat n).
Proof.
  unfold be_value, be_bytes. rewrite rev_involutive. apply le_value_le_bytes.
Qed.

(** What a write that stays inside the buffer leaves: the bytes written where
    they were written, everything before and after as it was. *)
Lemma write_frame (buf : list byte) (off : Z) (bs : list byte) :
  0 <= off -> off + len bs <= len buf ->
  exists buf',
    write buf off bs = Done buf' /\
    len buf' = len buf /\
    field off (len bs) buf' = bs /\
    firstn (Z.to_nat off) buf' = firstn (Z.to_nat off) buf /\
    skipn (Z.to_nat (off + len bs)) buf' = skipn (Z.to_nat (off + len bs)) buf.
Proof.
  intros H0 H1. rewrite write_ok by assumption.
  eexists. split; [reflexivity|].
  assert (Lf : length (firstn (Z.to_nat off) buf) = Z.to_nat off)
    by (rewrite length_firstn; unfold len in *; lia).
  unfold field, splice, len in *.
  split; [rewrite !length_app, length_firstn, length_skipn; lia|].
  split; [|split].
  - rewrite <- Lf at 1. rewrite skipn_app, Nat.sub_diag, skipn_all. cbn [skipn app].
    rewrite Nat2Z.id. rewrite firstn_app, Nat.sub_diag, firstn_all, firstn_O.
    apply app_nil_r.
  - rewrite <- Lf at 1. rewrite firstn_app, Nat.sub_diag, firstn_all, firstn_O.
    apply app_nil_r.
  - rewrite app_assoc.
    replace (Z.to_nat (off + Z.of_nat (length bs)))
      with (length (firstn (Z.to_nat off) buf ++ bs)) by (rewrite length_app; lia).
    rewrite skipn_app, Nat.sub_diag, skipn_all. cbn [skipn app].
    rewrite length_app, Lf. reflexivity.
Qed.

(** X9: a [WriteBE64] whose 8 bytes, or a [WriteBE32] whose 4 bytes, lie
    inside the buffer stores the value modulo [2^64] or [2^32] most
    significant byte first, and leaves every other byte of the buffer as it
    was. *)
Theorem WriteBE_stores_big_endian (buf : list byte) (ptr x : Z) :
  0 <= ptr ->
  (ptr + 8 <= len buf ->
   exists buf',
     WriteBE64 buf ptr x = Done buf' /\
     len buf' = len buf /\
     be_value (field ptr 8 buf') = to_uint64 x /\
     firstn (Z.to_nat ptr) buf' = firstn (Z.to_nat ptr) buf /\
     skipn (Z.to_nat (ptr + 8)) buf' = skipn (Z.to_nat (ptr + 8)) buf) /\
  (ptr + 4 <= len buf ->
   exists buf',
     WriteBE32 buf ptr x = Done buf' /\
     len buf' = len buf /\
     be_value (field ptr 4 buf') = to_uint32 x /\
     firstn (Z.to_nat ptr) buf' = firstn (Z.to_nat ptr) buf /\
     skipn (Z.to_nat (ptr + 4)) buf' = skipn (Z.to_nat (ptr + 4)) buf).
Proof.
  intros H0. split; intro H1.
  - rewrite WriteBE64_write.
    destruct (write_frame buf ptr (be_bytes 8 x)) as [buf' [W [L [F [A B]]]]];
      [assumption | rewrite len_be_bytes; lia|].
    rewrite len_be_bytes in F, B.
    exists buf'. repeat split; try assumption.
    change (Z.of_nat 8) with 8 in F. rewrite F. apply be_value_be_bytes.
  - rewrite WriteBE32_write.
    destruct (write_frame buf ptr (be_bytes 4 x)) as [buf' [W [L [F [A B]]]]];
      [assumption | rewrite len_be_bytes; lia|].
    rewrite len_be_bytes in F, B.
    exists buf'. repeat split; try assumption.
    change (Z.of_nat 4) with 4 in F. rewrite F. apply be_value_be_bytes.
Qed.

Lemma be_words_digest_bytes (state : sha_state) :
  length state = 8%nat -> be_words 8 (digest_bytes state) = map to_uint32 state.
Proof.
  intro H. explode state H. unfold digest_bytes, word. cbn [nth].
  rewrite !be_bytes_4. cbn [app be_words firstn skipn].
  rewrite <- !be_bytes_4, !be_value_be_bytes. reflexivity.
Qed.

(** X10: [sha256_done] inside the buffer stores 32 bytes at [res] and leaves
    the rest of the buffer as it was; read back as big-endian 32-bit words,
    the 32 bytes are the eight state words. *)
Theorem sha256_done_stores_state (buf : list byte) (res : Z) (state : sha_state) :
  length state = 8%nat -> 0 <= res -> res + 32 <= len buf ->
  exists buf',
    sha256_done buf res state = Done buf' /\
    len buf' = len buf /\
    be_words 8 (field res 32 buf') = map to_uint32 state /\
    firstn (Z.to_nat res) buf' = firstn (Z.to_nat res) buf /\
    skipn (Z.to_nat (res + 32)) buf' = skipn (Z.to_nat (res + 32)) buf.
Proof.
  intros Hs H0 H1. rewrite sha256_done_write.
  destruct (write_frame buf res (digest_bytes state)) as [buf' [W [L [F [A B]]]]];
    [assumption | rewrite len_digest_bytes; lia|].
  rewrite len_digest_bytes in F, B.
  exists buf'. repeat split; try assumption.
  rewrite F. now apply be_words_digest_bytes.
Qed.

(** ** The size of the padded buffer *)

(** X11: up to [2^64 - 73] bytes of input, the raw path allocates between 9
    and 72 bytes more than the input: the least multiple of 64 that leaves
    room for the [0x80] byte and the 8-byte length, which is
    [(byte_count + 72) / 64] blocks. *)
Theorem padded_size_overhead (byte_count : Z) :
  0 <= byte_count <= 2 ^ 64 - 73 ->
  9 <= padded_size byte_count - byte_count <= 72 /\
  padded_size byte_count / 64 = (byte_count + 72) / 64 /\
  (forall m, m mod 64 = 0 -> byte_count + 9 <= m -> padded_size byte_count <= m).
Proof.
  intro H. rewrite (padded_size_eq byte_count H).
  pose proof (pad_count_spec byte_count) as [B M].
  clear - H B M. change (2 ^ 64) with 18446744073709551616 in H.
  repeat split.
  - lia.
  - Z.div_mod_to_equations. lia.
  - Z.div_mod_to_equations. lia.
  - intros m Hm Hle. Z.div_mod_to_equations. lia.
Qed.


(** ** What the hash functions read *)

Lemma read_of_prefix (src : list byte) (n : Z) :
  0 <= n <= len src -> read (firstn (Z.to_nat n) src) 0 n = read src 0 n.
Proof.
  intro H. rewrite (read_prefix src) by assumption.
  apply read_all. now apply len_firstn.
Qed.

Lemma double_sha256_of_prefix (input : list byte) (byte_count : Z) :
  0 <= byte_count <= len input ->
  double_sha256 (firstn (Z.to_nat byte_count) input) byte_count
  = double_sha256 input byte_count.
Proof.
  intro H. unfold double_sha256, first_pass_data, memcpy.
  rewrite read_of_prefix by assumption. reflexivity.
Qed.

(** X12: [double_sha256] depends on the first [byte_count] bytes of its input
    only; with [byte_count = 0] it gives the same digest for every input. *)
Theorem double_sha256_reads_byte_count (input other : list byte) (byte_count : Z) :
  0 <= byte_count <= len input -> byte_count <= len other ->
  firstn (Z.to_nat byte_count) other = firstn (Z.to_nat byte_count) input ->
  double_sha256 other byte_count = double_sha256 input byte_count /\
  double_sha256 input 0 = double_sha256 [] 0.
Proof.
  intros Hi Ho E. split.
  - rewrite <- (double_sha256_of_prefix input), <- (double_sha256_of_prefix other) by lia.
    now rewrite E.
  - pose proof (len_nonneg input).
    rewrite <- (double_sha256_of_prefix input 0) by lia. reflexivity.
Qed.

Lemma two_32_inputs_exact (data0 a b : list byte) :
  len a = 32 -> len b = 32 -> len data0 = 128 ->
  double_sha256_two_32_inputs data0 a b = double_sha256 (a ++ b) 64.
Proof.
  intros Ha Hb H0.
  unfold double_sha256_two_32_inputs, double_sha256. destruct cfg.
  - rewrite !read_all by (rewrite ?len_app; lia).
    change (64 =? 0) with false. cbn [run_bind].
    now rewrite Write_Write.
  - rewrite two_inputs_data_ok by assumption.
    rewrite first_pass_data_ok
      by (rewrite ?len_app; change (2 ^ 64) with 18446744073709551616; lia).
    rewrite firstn_all2 by (unfold len in Ha, Hb; rewrite length_app; lia).
    change (padded_size 64) with 128. change (pad_count 64) with 56.
    change (Z.to_nat (56 - 1)) with 55%nat. change (8 * 64) with 512.
    change (128 mod 64 =? 0) with true. change (128 / 64) with 2.
    rewrite <- !app_assoc. reflexivity.
Qed.

Lemma two_32_inputs_of_prefix (data0 a b : list byte) :
  32 <= len a -> 32 <= len b ->
  double_sha256_two_32_inputs data0 a b
  = double_sha256_two_32_inputs data0 (firstn 32 a) (firstn 32 b).
Proof.
  intros Ha Hb.
  unfold double_sha256_two_32_inputs, two_inputs_data, memcpy.
  change 32%nat with (Z.to_nat 32).
  rewrite !read_of_prefix by lia. reflexivity.
Qed.

(** X13: the fast path reads the first 32 bytes of each input and nothing
    else: longer inputs give the digest of the two 32-byte prefixes, and what
    the array [data] held beforehand does not matter. *)
Theorem double_sha256_two_32_inputs_reads_32 (data0 data1 a b : list byte) :
  32 <= len a -> 32 <= len b -> len data0 = 128 -> len data1 = 128 ->
  double_sha256_two_32_inputs data0 a b = double_sha256 (firstn 32 a ++ firstn 32 b) 64 /\
  double_sha256_two_32_inputs data0 a b = double_sha256_two_32_inputs data1 a b.
Proof.
  intros Ha Hb H0 H1.
  assert (La : len (firstn 32 a) = 32) by (apply (len_firstn a 32); lia).
  assert (Lb : len (firstn 32 b) = 32) by (apply (len_firstn b 32); lia).
  assert (E : forall d, len d = 128 ->
                double_sha256_two_32_inputs d a b
                = double_sha256 (firstn 32 a ++ firstn 32 b) 64).
  { intros d Hd. rewrite two_32_inputs_of_prefix by assumption.
    now apply two_32_inputs_exact. }
  split; [now apply E|]. now rewrite !E.
Qed.

(** ** The hash of a block header *)

Lemma skipn_firstn_len (block : list byte) (offset n : Z) :
  0 <= offset -> 0 <= n -> offset + n <= len block ->
  n <= len (skipn (Z.to_nat offset) block).
Proof. intros. unfold len in *. rewrite length_skipn. lia. Qed.

(** X14: [getblockhash] stops at its assertion exactly when [hashRes] is not
    32 bytes long.  Otherwise, on a block holding 80 bytes from [offset] on,
    it leaves in [hashRes] the 32 bytes [double_sha256] stores for those 80
    bytes, whatever [hashRes] held and whatever surrounds the header; on a
    block that holds fewer bytes it reads outside the block. *)
Theorem getblockhash_hashes_the_header (hashRes block : list byte) (offset : Z) :
  0 <= offset ->
  (len hashRes <> 32 -> getblockhash hashRes block offset = Fault AssertionFailed) /\
  (len hashRes = 32 -> offset + 80 <= len block ->
   getblockhash hashRes block offset
   = double_sha256 (firstn 80 (skipn (Z.to_nat offset) block)) 80 /\
   exists hash, getblockhash hashRes block offset = Done hash /\ len hash = 32) /\
  (len hashRes = 32 -> len block < offset + 80 ->
   getblockhash hashRes block offset = Fault OutOfBounds).
Proof.
  intro H0. unfold getblockhash. split; [|split].
  - intro N. destruct (Z.eqb_spec (len hashRes) 32) as [E|E]; [contradiction|reflexivity].
  - intros E Hb. rewrite E. cbn [assert Z.eqb Pos.eqb run_bind].
    assert (L : 80 <= len (skipn (Z.to_nat offset) block))
      by (apply skipn_firstn_len; lia).
    split.
    + change 80%nat with (Z.to_nat 80). symmetry. apply double_sha256_of_prefix. lia.
    + apply double_sha256_total; [change (2 ^ 64) with 18446744073709551616; lia | exact L].
  - intros E Hb. rewrite E. cbn [assert Z.eqb Pos.eqb run_bind].
    assert (R : read (skipn (Z.to_nat offset) block) 0 80 = Fault OutOfBounds).
    { unfold read, in_bounds.
      destruct (Z.leb_spec (0 + 80) (len (skipn (Z.to_nat offset) block))) as [P|P];
        [|reflexivity].
      unfold len in *. rewrite length_skipn in P. lia. }
    unfold double_sha256, first_pass_data, memcpy. rewrite R.
    destruct cfg; reflexivity.
Qed.


(** ** The message header, again *)

Lemma prepare_message_Done (command headerAndData : list byte) (datalen : Z) (out : list byte) :
  strlen command <= 12 -> sizeof_header <= len headerAndData ->
  prepare_message command headerAndData datalen = Done out ->
  sizeof_header <= len out /\ skipn 24 out = skipn 24 headerAndData.
Proof.
  intros Hc Hb P. rewrite prepare_message_eq in P by assumption.
  destruct (double_sha256 (skipn 24 headerAndData) (to_uint64 datalen)) as [h|f] eqn:E;
    unfold run_bind in P; [|discriminate P].
  apply double_sha256_len in E.
  set (magic := object_bytes host 4 (to_uint32 BITCOIN_MAGIC)) in *.
  set (cmd := c_str command ++ repeat x00 (12 - length (c_str command))) in *.
  assert (Lm : length magic = 4%nat) by apply length_object_bytes.
  assert (Lc : length cmd = 12%nat)
    by (unfold cmd; rewrite length_app, repeat_length; unfold strlen, len in Hc; lia).
  assert (Lf : length (firstn 4 h) = 4%nat)
    by (rewrite length_firstn; unfold len in E; lia).
  assert (O : out = magic ++ cmd ++ le_bytes 4 datalen ++ firstn 4 h
                    ++ skipn 24 headerAndData) by congruence.
  rewrite O. split.
  - unfold sizeof_header, len.
    rewrite !length_app, Lm, Lc, Lf, length_le_bytes. lia.
  - apply fields_of_header; try assumption. apply length_le_bytes.
Qed.

(** X15: what [prepare_message] leaves depends on the command, [datalen] and
    the payload, not on what the 24 header bytes held before; run again on
    its own output it changes nothing. *)
Theorem prepare_message_overwrites_header
        (command headerAndData other : list byte) (datalen : Z) :
  strlen command <= 12 ->
  sizeof_header <= len headerAndData -> sizeof_header <= len other ->
  skipn 24 other = skipn 24 headerAndData ->
  prepare_message command other datalen = prepare_message command headerAndData datalen /\
  (forall out,
     prepare_message command headerAndData datalen = Done out ->
     prepare_message command out datalen = Done out).
Proof.
  intros Hc Hb Ho E.
  assert (F : forall b1 b2, sizeof_header <= len b1 -> sizeof_header <= len b2 ->
                skipn 24 b1 = skipn 24 b2 ->
                prepare_message command b1 datalen = prepare_message command b2 datalen).
  { intros b1 b2 H1 H2 E12. rewrite !prepare_message_eq by assumption.
    now rewrite E12. }
  split; [now apply F|].
  intros out P.
  destruct (prepare_message_Done _ _ _ _ Hc Hb P) as [Lo So].
  rewrite <- P. now apply F.
Qed.

(** The writes into the header when the command has up to 19 characters:
    the copy runs over the length and checksum fields, which are written
    afterwards. *)
Lemma header_writes_long (hdr cs l4 magic : list byte) :
  length hdr = 24%nat -> (length cs <= 19)%nat ->
  length l4 = 4%nat -> length magic = 4%nat ->
  exists k4,
    length k4 = 4%nat /\
    splice (splice (splice (splice hdr 4 (repeat x00 12)) 4 (cs ++ [x00])) 16 l4) 0 magic
    = magic ++ firstn 12 (cs ++ repeat x00 12) ++ l4 ++ k4.
Proof.
  intros Hh Hc Hl Hm.
  explode hdr Hh. explode l4 Hl. explode magic Hm.
  do 20 (destruct cs as [|? cs]; [eexists [_; _; _; _]; split; reflexivity|]).
  exfalso. simpl in Hc. lia.
Qed.

(** X16: a command of 13 to 19 characters is not refused and does not reach
    the payload: its first 12 characters fill the command field, with no
    terminator, and the magic, the length, the checksum and the payload are as
    for a short command.  (The same equation holds for shorter commands.) *)
Theorem prepare_message_cuts_long_command (command headerAndData : list byte) (datalen : Z) :
  strlen command <= 19 -> sizeof_header <= len headerAndData ->
  prepare_message command headerAndData datalen
  = (fullhash <- double_sha256 (skipn 24 headerAndData) (to_uint64 datalen) ;;
     Done (object_bytes host 4 (to_uint32 BITCOIN_MAGIC)
           ++ firstn 12 (c_str command ++ repeat x00 12)
           ++ le_bytes 4 datalen
           ++ firstn 4 fullhash
           ++ skipn 24 headerAndData))%run.
Proof.
  unfold strlen, sizeof_header. intros Hc Hb.
  set (payload := skipn 24 headerAndData).
  assert (Hh : length (firstn 24 headerAndData) = 24%nat)
    by (rewrite length_firstn; unfold len in Hb; lia).
  rewrite <- (firstn_skipn 24 headerAndData) at 1. fold payload.
  set (hdr := firstn 24 headerAndData) in *.
  set (magic := object_bytes host 4 (to_uint32 BITCOIN_MAGIC)).
  assert (Hm : length magic = 4%nat) by apply length_object_bytes.
  unfold prepare_message, memset, strcpy, memcpy,
    offsetof_command, sizeof_command, offsetof_length, offsetof_magic,
    offsetof_checksum, sizeof_checksum, sizeof_header.
  rewrite object_bytes_htole. fold magic.
  unfold to_uint32. change (2 ^ 32) with (2 ^ (8 * Z.of_nat 4)). rewrite le_bytes_mod.
  change (Z.to_nat 12) with 12%nat. change (Z.to_nat 24) with 24%nat.
  assert (Lc : (length (c_str command ++ [x00]) <= 20)%nat)
    by (rewrite length_app; unfold len in Hc; cbn [length]; lia).
  assert (L1 : length (splice hdr 4 (repeat x00 12)) = 24%nat)
    by (rewrite length_splice; rewrite ?repeat_length; lia).
  assert (L2 : length (splice (splice hdr 4 (repeat x00 12)) 4 (c_str command ++ [x00]))
               = 24%nat)
    by (rewrite length_splice; lia).
  assert (L3 : length (splice (splice (splice hdr 4 (repeat x00 12)) 4
                                      (c_str command ++ [x00])) 16 (le_bytes 4 datalen))
               = 24%nat)
    by (rewrite length_splice; rewrite ?length_le_bytes; lia).
  rewrite write_prefix by (unfold len; rewrite ?repeat_length; lia).
  cbn [run_bind]. change (Z.to_nat 4) with 4%nat.
  rewrite write_prefix by (unfold len; lia).
  cbn [run_bind]. change (Z.to_nat 4) with 4%nat.
  rewrite write_prefix by (unfold len; rewrite ?length_le_bytes; lia).
  cbn [run_bind]. change (Z.to_nat 16) with 16%nat.
  rewrite write_prefix by (unfold len; lia).
  cbn [run_bind]. change (Z.to_nat 0) with 0%nat.
  destruct (header_writes_long hdr (c_str command) (le_bytes 4 datalen) magic)
    as [k4 [Hk W]];
    [assumption | unfold len in Hc; lia | apply length_le_bytes | assumption |].
  rewrite W. clear W.
  set (cmd := firstn 12 (c_str command ++ repeat x00 12)).
  assert (Hcmd : length cmd = 12%nat)
    by (unfold cmd; rewrite length_firstn, length_app, repeat_length; lia).
  replace (skipn 24 ((magic ++ cmd ++ le_bytes 4 datalen ++ k4) ++ payload))
    with payload.
  2:{ rewrite skipn_app, skipn_all2
        by (rewrite !length_app, length_le_bytes; lia).
      rewrite !length_app, length_le_bytes, Hm, Hcmd, Hk. reflexivity. }
  destruct (double_sha256 payload (to_uint64 datalen)) as [fullhash|f] eqn:E;
    cbn [run_bind]; [|reflexivity].
  apply double_sha256_len in E.
  rewrite read_prefix by lia. cbn [run_bind].
  change (Z.to_nat 4) with 4%nat.
  assert (Hf : length (firstn 4 fullhash) = 4%nat)
    by (rewrite length_firstn; unfold len in E; lia).
  rewrite write_ok
    by (unfold len; rewrite ?length_app, ?length_le_bytes, ?Hf, ?Hm, ?Hcmd, ?Hk; lia).
  f_equal. change (Z.to_nat 20) with 20%nat.
  replace ((magic ++ cmd ++ le_bytes 4 datalen ++ k4) ++ payload)
    with ((magic ++ cmd ++ le_bytes 4 datalen) ++ k4 ++ payload)
    by (rewrite <- !app_assoc; reflexivity).
  replace 20%nat with (length (magic ++ cmd ++ le_bytes 4 datalen))
    by (rewrite !length_app, length_le_bytes, Hm, Hcmd; reflexivity).
  rewrite splice_field by lia.
  rewrite <- !app_assoc. reflexivity.
Qed.

End Linked.

(** * Concrete runs

    The reference routines meet the interface, so every property above can be
    run on concrete inputs. *)

Lemma length_sha_round (st : sha_state) (kw : Z * Z) :
  length (sha_round st kw) = length st.
Proof.
  unfold sha_round.
  do 9 (destruct st as [|? st]; [reflexivity|]). reflexivity.
Qed.

Lemma length_fold_sha_round (kws : list (Z * Z)) : forall st,
  length (fold_left sha_round kws st) = length st.
Proof.
  induction kws as [|kw kws IH]; intro st; cbn [fold_left]; [reflexivity|].
  now rewrite IH, length_sha_round.
Qed.

Lemma length_sha256_block (st : sha_state) (block : list byte) :
  length (sha256_block st block) = length st.
Proof.
  unfold sha256_block.
  rewrite length_map, length_combine, length_fold_sha_round. apply Nat.min_id.
Qed.

Lemma length_sha256_blocks (n : nat) : forall data st,
  length (sha256_blocks n data st) = length st.
Proof.
  induction n as [|n IH]; intros data st; cbn [sha256_blocks]; [reflexivity|].
  now rewrite IH, length_sha256_block.
Qed.

Lemma length_sha256_ref (msg : list byte) : length (sha256_ref msg) = 32%nat.
Proof.
  unfold sha256_ref. cbv zeta.
  match goal with
  | |- context [sha256_blocks ?n ?d sha256_init] =>
      pose proof (length_sha256_blocks n d sha256_init) as L;
      set (st := sha256_blocks n d sha256_init) in *
  end.
  change (length sha256_init) with 8%nat in L.
  explode st L. reflexivity.
Qed.

(** Modelled from the spec: the class [CSHA256] as the bytes written so far,
    hashed with standard SHA-256 on [Finalize]. *)
Definition CSHA256_ref_api : CSHA256_api :=
  {| CSHA256 := list byte;
     CSHA256_new := [];
     CSHA256_Write := fun h bs => h ++ bs;
     CSHA256_Finalize := fun h => (sha256_ref h, h);
     CSHA256_Reset := fun _ => [];
     Write_Write := fun h x y => eq_sym (app_assoc h x y);
     Finalize_size := length_sha256_ref |}.

(** Inputs for the runs. *)
Definition ping : list byte := [x70; x69; x6e; x67; x00].
Definition thirteen : list byte := repeat x61 13 ++ [x00].
Definition digest_a : list byte := repeat x11 32.
Definition digest_b : list byte := repeat x22 32.
Definition stack_garbage : list byte := repeat xaa 128.

(** A buffer with room for the header and [n] bytes of payload. *)
Definition buffer_of (n : Z) : list byte := repeat x00 (Z.to_nat (24 + n)).

Lemma len_buffer_of (n : Z) : 0 <= n -> len (buffer_of n) = 24 + n.
Proof. intro H. unfold buffer_of. rewrite len_repeat. lia. Qed.

Lemma len_payload_buffer_of (n : Z) : 0 <= n -> len (skipn 24 (buffer_of n)) = n.
Proof.
  intro H. pose proof (len_buffer_of n H) as L.
  unfold len in *. rewrite length_skipn. lia.
Qed.

(** An address as the allocator hands them out, for the vectors of the
    runs below. *)
Definition storage : Z := 0x7f3a5c000b20.

(** The model computes the published digests. *)
Example double_sha256_empty :
  double_sha256 SHA256_ref (api := CSHA256_ref_api) RawCompress [] 0
  = Done [x5d; xf6; xe0; xe2; x76; x13; x59; xd3; x0a; x82; x75; x05; x8e; x29; x9f; xcc;
          x03; x81; x53; x45; x45; xf5; x5c; xf4; x3e; x41; x98; x3f; x5d; x4c; x94; x56]
  /\ double_sha256 SHA256_ref (api := CSHA256_ref_api) GenericHash [] 0
     = double_sha256 SHA256_ref (api := CSHA256_ref_api) RawCompress [] 0.
Proof. split; vm_compute; reflexivity. Qed.

Example double_sha256_abc :
  double_sha256 SHA256_ref (api := CSHA256_ref_api) RawCompress [x61; x62; x63] 3
  = Done [x4f; x8b; x42; xc2; x2d; xd3; x72; x9b; x51; x9b; xa6; xf6; x8d; x2d; xa7; xcc;
          x5b; x2d; x60; x6d; x05; xda; xed; x5a; xd5; x12; x8c; xc0; x3e; x6c; x63; x58].
Proof. vm_compute. reflexivity. Qed.

Example double_sha256_two_32_inputs_run :
  double_sha256_two_32_inputs SHA256_ref (api := CSHA256_ref_api) RawCompress
    stack_garbage digest_a digest_b
  = Done [x11; x40; xb5; x74; xaf; xee; x3c; xb8; x9a; x4d; xb3; xdc; x80; x37; xac; xfa;
          x85; x6f; x51; x12; xe6; x8a; x95; x4e; x3c; xa0; xa9; x08; x08; x2c; x98; xba].
Proof. vm_compute. reflexivity. Qed.

Example prepare_message_ping_run :
  prepare_message SHA256_ref (api := CSHA256_ref_api) RawCompress LittleEndian
    BITCOIN_MAGIC_ref ping (buffer_of 1) 1
  = Done [xf9; xbe; xb4; xd9;
          x70; x69; x6e; x67; x00; x00; x00; x00; x00; x00; x00; x00;
          x01; x00; x00; x00;
          x14; x06; xe0; x58;
          x00].
Proof. vm_compute. reflexivity. Qed.

(** ** C1 *)

Lemma varint_minimal_and_roundtrip_witness :
  (300 < 0xfd -> varint LittleEndian 300 = [byte_of 300]) /\
  (0xfd <= 300 <= 0xffff -> varint LittleEndian 300 = xfd :: le_bytes 2 300) /\
  (0x10000 <= 300 -> varint LittleEndian 300 = xfe :: le_bytes 4 300) /\
  (300 < 2 ^ 31 ->
   forall base, 0 <= base -> base + len (varint LittleEndian 300) < 2 ^ 64 ->
     decode base (varint LittleEndian 300)
     = (Returned 300, base + len (varint LittleEndian 300))) /\
  (forall arg, to_uint32 arg = 300 -> varint LittleEndian arg = varint LittleEndian 300).
Proof.
  apply (varint_minimal_and_roundtrip LittleEndian 300). lia.
Defined.

(** A 64-bit value above [0xffffffff] is not given the [0xff] form, and does
    not come back from the decoder: [2^32] is encoded as the single byte 0. *)
Lemma varint_loses_values_above_32_bits :
  varint LittleEndian (2 ^ 32) = [x00] /\
  varint LittleEndian (2 ^ 32) <> xff :: le_bytes 8 (2 ^ 32) /\
  decode storage (varint LittleEndian (2 ^ 32)) = (Returned 0, storage + 1) /\
  fst (decode storage (varint LittleEndian (2 ^ 32))) <> Returned (2 ^ 32).
Proof. vm_compute. repeat split; discriminate. Qed.

(** ** C2 *)

Lemma read_varint_fe_sign_extends_witness :
  read_varint storage [xfe; x00; x00; x00; x80] (storage + 5) storage
  = (Returned 0xffffffff80000000, storage + 5)
  /\ le_value [x00; x00; x00; x80] = 0x80000000
  /\ 2 ^ 32 <= 0xffffffff80000000.
Proof.
  apply (read_varint_fe_sign_extends storage); unfold storage; lia.
Defined.

(** ** C3 *)

Lemma read_varint_truncated_witness :
  read_varint storage [] storage storage = (Thrown read_exception, storage) /\
  read_varint storage ([] ++ xff :: [x01]) (storage + len ([] ++ xff :: [x01]))
              (storage + len [])
  = (Thrown read_exception, storage + len [] + 1).
Proof.
  apply (read_varint_truncated storage storage [] [x01] []).
  - unfold storage. lia.
  - unfold storage. lia.
  - vm_compute. reflexivity.
  - simpl. lia.
Defined.

(** On [0xff] alone the iterator does not stay where it was. *)
Lemma read_varint_consumes_prefix_before_throwing :
  read_varint storage [xff] (storage + 1) storage = (Thrown read_exception, storage + 1) /\
  snd (read_varint storage [xff] (storage + 1) storage) <> storage.
Proof. vm_compute. split; [reflexivity | discriminate]. Qed.

(** ** C9 *)

Lemma read_varint_accepts_non_minimal_witness :
  decode storage [xfd; x01; x00] = (Returned 1, storage + 3) /\
  read_varint storage ([x00] ++ xfd :: x2c :: x01 :: [xff])
              (storage + len ([x00] ++ xfd :: x2c :: x01 :: [xff])) (storage + len [x00])
  = (Returned (byte_val x2c + 2 ^ 8 * byte_val x01), storage + len [x00] + 3).
Proof.
  apply (read_varint_accepts_non_minimal storage [x00] x2c x01 [xff]).
  - unfold storage. lia.
  - vm_compute. reflexivity.
Defined.

(** ** C4 *)

Lemma double_sha256_two_32_inputs_agrees_witness :
  (double_sha256_two_32_inputs SHA256_ref (api := CSHA256_ref_api) RawCompress
     stack_garbage digest_a digest_b
   = double_sha256 SHA256_ref (api := CSHA256_ref_api) RawCompress (digest_a ++ digest_b) 64
   /\ exists digest,
       double_sha256 SHA256_ref (api := CSHA256_ref_api) RawCompress (digest_a ++ digest_b) 64
       = Done digest /\ len digest = 32)
  /\
  (double_sha256_two_32_inputs SHA256_ref (api := CSHA256_ref_api) GenericHash
     stack_garbage digest_a digest_b
   = double_sha256 SHA256_ref (api := CSHA256_ref_api) GenericHash (digest_a ++ digest_b) 64
   /\ exists digest,
       double_sha256 SHA256_ref (api := CSHA256_ref_api) GenericHash (digest_a ++ digest_b) 64
       = Done digest /\ len digest = 32).
Proof.
  split; apply double_sha256_two_32_inputs_agrees; reflexivity.
Defined.

(** ** C8 *)

Lemma sha256_padding_witness :
  first_pass_data [x61; x62; x63] 3
  = Done (firstn (Z.to_nat 3) [x61; x62; x63] ++ [x80]
          ++ repeat x00 (Z.to_nat (pad_count 3 - 1)) ++ be_bytes 8 (8 * 3)) /\
  (8 * 3 < 2 ^ 64 -> be_value (be_bytes 8 (8 * 3)) = 8 * 3) /\
  1 <= pad_count 3 <= 64 /\
  (3 + pad_count 3) mod 64 = 56 /\
  len (firstn (Z.to_nat 3) [x61; x62; x63] ++ [x80]
       ++ repeat x00 (Z.to_nat (pad_count 3 - 1)) ++ be_bytes 8 (8 * 3))
  = padded_size 3 /\
  padded_size 3 = 3 + pad_count 3 + 8 /\
  0 < padded_size 3 /\
  padded_size 3 mod 64 = 0 /\
  (forall n, assert (padded_size n mod 64 =? 0) = Done tt) /\
  (forall state,
     second_pass_data
       (firstn (Z.to_nat 3) [x61; x62; x63] ++ [x80]
        ++ repeat x00 (Z.to_nat (pad_count 3 - 1)) ++ be_bytes 8 (8 * 3)) state
     = Done (digest_bytes state ++ [x80] ++ repeat x00 23 ++ be_bytes 8 (8 * 32)
             ++ skipn 64 (firstn (Z.to_nat 3) [x61; x62; x63] ++ [x80]
                          ++ repeat x00 (Z.to_nat (pad_count 3 - 1))
                          ++ be_bytes 8 (8 * 3)))).
Proof.
  apply (sha256_padding [x61; x62; x63] 3).
  - unfold len. simpl. lia.
  - vm_compute. discriminate.
Defined.

(** Why the lemmas on the padded size stop at [2^64 - 73], far beyond
    [max_size]: with [byte_count = 2^64 - 9] the 64-bit sum
    [byte_count + pad_count + 8] wraps to 0.  No input holds that many
    bytes. *)
Lemma padded_size_wraps_to_zero :
  pad_count (2 ^ 64 - 9) = 1 /\
  padded_size (2 ^ 64 - 9) = 0 /\
  ~ 0 < padded_size (2 ^ 64 - 9) /\
  (forall input, first_pass_data input (2 ^ 64 - 9) = Fault OutOfBounds).
Proof.
  assert (P : padded_size (2 ^ 64 - 9) = 0) by (vm_compute; reflexivity).
  split; [vm_compute; reflexivity|]. split; [exact P|]. split; [rewrite P; lia|].
  intro input. unfold first_pass_data. cbv zeta. rewrite P.
  change (vector 0) with (@nil byte). unfold memcpy, read.
  destruct (in_bounds input 0 (2 ^ 64 - 9)) eqn:B; [|reflexivity].
  cbn [run_bind].
  assert (W : forall bs, len bs = 2 ^ 64 - 9 -> write [] 0 bs = Fault OutOfBounds).
  { intros bs L. unfold write, in_bounds. rewrite L.
    change (len []) with 0.
    destruct (Z.leb_spec (0 + (2 ^ 64 - 9)) 0) as [Q|Q]; [|now rewrite andb_false_r].
    change (2 ^ 64) with 18446744073709551616 in Q. lia. }
  rewrite W; [reflexivity|].
  unfold in_bounds in B. apply andb_prop in B as [_ B]. apply Z.leb_le in B.
  change (2 ^ 64) with 18446744073709551616 in *.
  unfold len in *. rewrite length_firstn, length_skipn. cbn [Z.to_nat Nat.sub] in *.
  lia.
Qed.

(** ** C5 *)

Lemma prepare_message_header_witness :
  prepare_message SHA256_ref (api := CSHA256_ref_api) RawCompress LittleEndian
    BITCOIN_MAGIC_ref ping (buffer_of 100000) 100000
  = (fullhash <- double_sha256 SHA256_ref (api := CSHA256_ref_api) RawCompress
                   (skipn 24 (buffer_of 100000)) (to_uint64 100000) ;;
     Done (object_bytes LittleEndian 4 (to_uint32 BITCOIN_MAGIC_ref)
           ++ (c_str ping ++ repeat x00 (12 - length (c_str ping)))
           ++ le_bytes 4 100000
           ++ firstn 4 fullhash
           ++ skipn 24 (buffer_of 100000)))%run
  /\ (0 <= 100000 <= 2 ^ 64 - 73 -> 100000 <= len (skipn 24 (buffer_of 100000)) ->
      exists fullhash out,
        double_sha256 SHA256_ref (api := CSHA256_ref_api) RawCompress
          (skipn 24 (buffer_of 100000)) 100000 = Done fullhash /\
        prepare_message SHA256_ref (api := CSHA256_ref_api) RawCompress LittleEndian
          BITCOIN_MAGIC_ref ping (buffer_of 100000) 100000 = Done out /\
        field_magic out = object_bytes LittleEndian 4 (to_uint32 BITCOIN_MAGIC_ref) /\
        field_command out = c_str ping ++ repeat x00 (12 - length (c_str ping)) /\
        field_length out = le_bytes 4 100000 /\
        le_value (field_length out) = 100000 mod 2 ^ 32 /\
        (100000 <= 2 ^ 32 - 1 -> le_value (field_length out) = 100000) /\
        field_checksum out = firstn 4 fullhash /\
        skipn 24 out = skipn 24 (buffer_of 100000))
  /\ (0 <= 100000 < 2 ^ 32 -> le_value (le_bytes 4 100000) = 100000).
Proof.
  apply (prepare_message_header SHA256_ref (api := CSHA256_ref_api) RawCompress
           LittleEndian BITCOIN_MAGIC_ref ping (buffer_of 100000) 100000).
  - vm_compute. discriminate.
  - rewrite len_buffer_of by lia. unfold sizeof_header. lia.
Defined.

(** With a payload of [2^32 + 1] bytes the length field does not hold the
    byte count of the payload: it reads 1. *)
Lemma prepare_message_header_length_differs :
  exists out,
    prepare_message SHA256_ref (api := CSHA256_ref_api) RawCompress LittleEndian
      BITCOIN_MAGIC_ref ping (buffer_of (2 ^ 32 + 1)) (2 ^ 32 + 1) = Done out /\
    len (skipn 24 (buffer_of (2 ^ 32 + 1))) = 2 ^ 32 + 1 /\
    field_length out = [x01; x00; x00; x00] /\
    le_value (field_length out) <> 2 ^ 32 + 1.
Proof.
  assert (P : 0 <= 2 ^ 32 + 1) by (change (2 ^ 32) with 4294967296; lia).
  destruct (prepare_message_fields SHA256_ref (api := CSHA256_ref_api) RawCompress
              LittleEndian BITCOIN_MAGIC_ref ping (buffer_of (2 ^ 32 + 1)) (2 ^ 32 + 1))
    as [h [out [_ [R [_ [_ [L _]]]]]]].
  - vm_compute. discriminate.
  - rewrite (len_buffer_of _ P). unfold sizeof_header. lia.
  - change (2 ^ 32) with 4294967296. change (2 ^ 64) with 18446744073709551616. lia.
  - rewrite (len_payload_buffer_of _ P). lia.
  - exists out. split; [exact R|]. split; [exact (len_payload_buffer_of _ P)|].
    rewrite L. split; [reflexivity|]. vm_compute. discriminate.
Qed.

(** ** C6 *)

Lemma prepare_message_pads_command_witness :
  (exists out,
     prepare_message SHA256_ref (api := CSHA256_ref_api) GenericHash BigEndian
       BITCOIN_MAGIC_ref ping (buffer_of 1) 1 = Done out /\
     field_command out = c_str ping ++ repeat x00 (Z.to_nat (12 - strlen ping)) /\
     len (field_command out) = 12) /\
  (forall c b d,
     reports_no_failure
       (prepare_message SHA256_ref (api := CSHA256_ref_api) GenericHash BigEndian
          BITCOIN_MAGIC_ref c b d)).
Proof.
  apply (prepare_message_pads_command SHA256_ref (api := CSHA256_ref_api) GenericHash
           BigEndian BITCOIN_MAGIC_ref ping (buffer_of 1) 1).
  - vm_compute. discriminate.
  - vm_compute. discriminate.
  - change (2 ^ 64) with 18446744073709551616. lia.
  - vm_compute. discriminate.
Defined.

(** A command of 13 characters is not refused: the routine returns, with the
    first 12 characters in the command field and no terminator. *)
Lemma prepare_message_takes_13_characters :
  strlen thirteen = 13 /\
  prepare_message SHA256_ref (api := CSHA256_ref_api) RawCompress LittleEndian
    BITCOIN_MAGIC_ref thirteen (buffer_of 0) 0
  = Done [xf9; xbe; xb4; xd9;
          x61; x61; x61; x61; x61; x61; x61; x61; x61; x61; x61; x61;
          x00; x00; x00; x00;
          x5d; xf6; xe0; xe2].
Proof. split; vm_compute; reflexivity. Qed.

(** ** C7 *)

Lemma prepare_message_length_field_witness :
  (exists out,
     prepare_message SHA256_ref (api := CSHA256_ref_api) RawCompress LittleEndian
       BITCOIN_MAGIC_ref ping (buffer_of 1) 1 = Done out /\
     field_length out = le_bytes 4 1 /\
     le_value (field_length out) = 1 mod 2 ^ 32 /\
     (1 <= 2 ^ 32 - 1 -> le_value (field_length out) = 1)) /\
  (forall c b d,
     reports_no_failure
       (prepare_message SHA256_ref (api := CSHA256_ref_api) RawCompress LittleEndian
          BITCOIN_MAGIC_ref c b d)).
Proof.
  apply (prepare_message_length_field SHA256_ref (api := CSHA256_ref_api) RawCompress
           LittleEndian BITCOIN_MAGIC_ref ping (buffer_of 1) 1).
  - vm_compute. discriminate.
  - vm_compute. discriminate.
  - change (2 ^ 64) with 18446744073709551616. lia.
  - vm_compute. discriminate.
Defined.

(** A payload of [2^32] bytes is not refused: the routine returns and the
    length field reads 0. *)
Lemma prepare_message_length_wraps :
  exists out,
    prepare_message SHA256_ref (api := CSHA256_ref_api) RawCompress LittleEndian
      BITCOIN_MAGIC_ref ping (buffer_of (2 ^ 32)) (2 ^ 32) = Done out /\
    field_length out = [x00; x00; x00; x00] /\
    le_value (field_length out) <> 2 ^ 32.
Proof.
  assert (P : 0 <= 2 ^ 32) by (change (2 ^ 32) with 4294967296; lia).
  destruct (prepare_message_fields SHA256_ref (api := CSHA256_ref_api) RawCompress
              LittleEndian BITCOIN_MAGIC_ref ping (buffer_of (2 ^ 32)) (2 ^ 32))
    as [h [out [_ [R [_ [_ [L _]]]]]]].
  - vm_compute. discriminate.
  - rewrite (len_buffer_of _ P). unfold sizeof_header. lia.
  - change (2 ^ 32) with 4294967296. change (2 ^ 64) with 18446744073709551616. lia.
  - rewrite (len_payload_buffer_of _ P). lia.
  - exists out. split; [exact R|]. rewrite L.
    split; [reflexivity|]. vm_compute. discriminate.
Qed.

(** * Further properties: output, transfers and the standard hash *)

(** ** [print_hash] *)

(** A test that holds of the sixteen digit values holds below 16. *)
Lemma below_16 (P : Z -> bool) :
  forallb P (map Z.of_nat (seq 0 16)) = true -> forall n, 0 <= n < 16 -> P n = true.
Proof.
  intros F n H. rewrite forallb_forall in F.
  rewrite <- (Z2Nat.id n) by lia. apply F, in_map, in_seq. lia.
Qed.

Lemma hex_value_digit (n : Z) : 0 <= n < 16 -> hex_value (hex_digit n) = n.
Proof.
  intro H. apply Z.eqb_eq.
  apply (below_16 (fun n => hex_value (hex_digit n) =? n)); [reflexivity | exact H].
Qed.

Lemma parse_hex_printf (v : Z) (s : list byte) :
  0 <= v < 2 ^ 8 -> parse_hex (printf_02x v ++ s) = byte_of v :: parse_hex s.
Proof.
  intros H. unfold printf_02x. cbn [app parse_hex].
  rewrite !hex_value_digit.
  - f_equal. f_equal. symmetry. apply Z.div_mod. lia.
  - apply Z.mod_pos_bound. lia.
  - split; [apply Z.div_pos; lia | apply Z.div_lt_upper_bound; lia].
Qed.

Lemma print_hash_loop_length (hash : list byte) (n : nat) :
  length (print_hash_loop hash n) = (2 * n)%nat.
Proof.
  induction n as [| n IH]; [reflexivity |].
  cbn [print_hash_loop]. unfold printf_02x. cbn [app length]. rewrite IH. lia.
Qed.

Lemma parse_hex_print_hash_loop (hash : list byte) (n : nat) :
  (n <= length hash)%nat -> parse_hex (print_hash_loop hash n) = rev (firstn n hash).
Proof.
  induction n as [| n IH]; intros L; [reflexivity |].
  cbn [print_hash_loop]. unfold deref. rewrite Nat2Z.id.
  rewrite parse_hex_printf by apply byte_val_range.
  rewrite byte_of_val, IH by lia.
  assert (E : firstn (S n) hash = firstn n hash ++ [nth n hash x00]).
  { clear IH. revert hash L. induction n as [| n IH]; intros [| b l] L; cbn [length] in L;
      try lia; [reflexivity |].
    change (firstn (S (S n)) (b :: l)) with (b :: firstn (S n) l).
    rewrite IH by lia. reflexivity. }
  rewrite E, rev_app_distr. reflexivity.
Qed.

Lemma hex_digit_lowercase (n : Z) :
  0 <= n < 16 ->
  let c := byte_val (hex_digit n) in 0x30 <= c <= 0x39 \/ 0x61 <= c <= 0x66.
Proof.
  intro H.
  pose proof (below_16 (fun n => let c := byte_val (hex_digit n) in
                                 ((0x30 <=? c) && (c <=? 0x39))
                                 || ((0x61 <=? c) && (c <=? 0x66)))
                       eq_refl n H) as B.
  cbv beta zeta in *.
  apply orb_true_iff in B. rewrite !andb_true_iff, !Z.leb_le in B. exact B.
Qed.

Lemma print_hash_loop_lowercase (hash : list byte) (n : nat) :
  Forall (fun c => 0x30 <= byte_val c <= 0x39 \/ 0x61 <= byte_val c <= 0x66)
         (print_hash_loop hash n).
Proof.
  induction n as [| n IH]; [constructor |].
  cbn [print_hash_loop]. unfold printf_02x. cbn [app].
  pose proof (byte_val_range (nth (Z.to_nat (Z.of_nat n)) hash x00)) as R.
  unfold deref.
  constructor; [| constructor; [| exact IH]]; apply hex_digit_lowercase.
  - split; [apply Z.div_pos; lia | apply Z.div_lt_upper_bound; lia].
  - apply Z.mod_pos_bound. lia.
Qed.

(** X17. [print_hash] reads exactly the first 32 bytes of [hash] and writes
    64 characters, each a lowercase hexadecimal digit, that spell those 32
    bytes from the last one to the first; so two hashes print alike only when
    their 32 bytes are equal.  With fewer than 32 bytes it reads outside the
    buffer. *)
Theorem print_hash_reversed_hex (hash : list byte) :
  (32 <= len hash ->
   exists out,
     print_hash hash = Done out /\
     length out = 64%nat /\
     Forall (fun c => 0x30 <= byte_val c <= 0x39 \/ 0x61 <= byte_val c <= 0x66) out /\
     parse_hex out = rev (firstn 32 hash) /\
     forall other, print_hash other = Done out -> firstn 32 other = firstn 32 hash) /\
  (len hash < 32 -> print_hash hash = Fault OutOfBounds).
Proof.
  unfold print_hash, in_bounds, len.
  change (0 <=? 0) with true. change (0 <=? 32) with true. cbn [andb].
  split; intros L.
  - exists (print_hash_loop hash 32).
    replace (0 + 32 <=? Z.of_nat (length hash)) with true by (symmetry; apply Z.leb_le; lia).
    split; [reflexivity |]. split; [apply print_hash_loop_length |].
    split; [apply print_hash_loop_lowercase |].
    split; [apply parse_hex_print_hash_loop; lia |].
    intros other. destruct (0 + 32 <=? Z.of_nat (length other)) eqn:B; [| discriminate].
    apply Z.leb_le in B. intros E.
    assert (E' : print_hash_loop other 32 = print_hash_loop hash 32) by congruence.
    apply (f_equal parse_hex) in E'.
    rewrite !parse_hex_print_hash_loop in E' by lia.
    rewrite <- (rev_involutive (firstn 32 other)), E'. apply rev_involutive.
  - replace (0 + 32 <=? Z.of_nat (length hash)) with false by (symmetry; apply Z.leb_gt; lia).
    reflexivity.
Qed.

(** ** [read_all] and [send_all] *)

Lemma transferred_snoc (calls : list Net.call) (c : Net.call) :
  Net.transferred (calls ++ [c]) = Net.transferred calls + Net.call_count c.
Proof.
  unfold Net.transferred. induction calls as [| d l IH]; cbn [app fold_right]; lia.
Qed.

Lemma contiguous_snoc (calls : list Net.call) (c : Net.call) : forall start,
  Net.contiguous start calls ->
  Net.call_offset c = start + Net.transferred calls ->
  Net.contiguous start (calls ++ [c]).
Proof.
  induction calls as [| d l IH]; intros start H E; cbn [app Net.contiguous] in *.
  - unfold Net.transferred in E. cbn [fold_right] in E. split; [lia | exact I].
  - destruct H as [H1 H2]. split; [exact H1 |]. apply IH; [exact H2 |].
    unfold Net.transferred in *. cbn [fold_right] in E. lia.
Qed.

Lemma length_le_transferred (calls : list Net.call) :
  Forall (fun c => 0 < Net.call_count c) calls ->
  Z.of_nat (length calls) <= Net.transferred calls.
Proof.
  unfold Net.transferred.
  induction 1 as [| c l H _ IH]; cbn [length fold_right]; lia.
Qed.

Lemma whole_or_nothing_calls {W : Type} (nbyte : Z) (w : W) (r : Z * W * list Net.call) :
  0 <= nbyte -> Net.whole_or_nothing nbyte w r -> (length (snd r) <= Z.to_nat nbyte)%nat.
Proof.
  destruct r as [[ret w'] calls]. unfold Net.whole_or_nothing. cbn [snd].
  intros R (_ & _ & [(_ & P & T) | (_ & _ & earlier & last & E & _ & P & T)] & _).
  - apply length_le_transferred in P. lia.
  - apply length_le_transferred in P. subst calls. rewrite length_app. cbn [length]. lia.
Qed.

Section TransferProofs.

Variable W : Type.
Variable syscall : W -> Z -> Z -> Z * W.
Hypothesis syscall_bounded : Net.bounded syscall.
Variable nbyte : Z.
Hypothesis nbyte_range : 0 <= nbyte < 2 ^ 63.
Variable w0 : W.

Lemma transfer_loop_spec : forall fuel s,
  Net.transfer_inv nbyte w0 s ->
  (Z.to_nat (nbyte - Net.t_total s) < fuel)%nat ->
  exists s',
    Net.transfer_loop syscall fuel nbyte s = Some s' /\
    Net.whole_or_nothing nbyte w0 (Net.transfer_result W s').
Proof.
  induction fuel as [| fuel IH]; intros s I F; [lia |].
  destruct I as (T & S_ & P & A & C & E & N).
  cbn [Net.transfer_loop].
  destruct (Net.t_total s <? nbyte) eqn:B.
  - apply Z.ltb_lt in B.
    assert (U : to_uint64 (nbyte - Net.t_total s) = nbyte - Net.t_total s).
    { unfold to_uint64. apply Z.mod_small. lia. }
    rewrite U.
    pose proof (syscall_bounded (Net.t_world s) (Net.t_total s) (nbyte - Net.t_total s)
                  ltac:(lia)) as Bd.
    destruct (syscall (Net.t_world s) (Net.t_total s) (nbyte - Net.t_total s))
      as [count w'] eqn:Sc.
    cbn [fst] in Bd.
    set (c := {| Net.call_offset := Net.t_total s;
                 Net.call_size := nbyte - Net.t_total s;
                 Net.call_count := count |}).
    assert (A' : Forall (fun c => 0 <= Net.call_offset c /\ 0 < Net.call_size c
                   /\ Net.call_offset c + Net.call_size c = nbyte) (Net.t_calls s ++ [c])).
    { apply Forall_app. split; [exact A |]. constructor; [| constructor].
      subst c. cbn. lia. }
    assert (C' : Net.contiguous 0 (Net.t_calls s ++ [c])).
    { apply contiguous_snoc; [exact C |]. subst c. cbn. lia. }
    destruct (count >? 0) eqn:G.
    + assert (0 < count) by lia.
      assert (U' : to_uint64 (Net.t_total s + count) = Net.t_total s + count).
      { unfold to_uint64. apply Z.mod_small. lia. }
      rewrite U'.
      apply IH.
      * unfold Net.transfer_inv. cbn [Net.t_total Net.t_count Net.t_world Net.t_calls].
        split; [lia |]. split; [rewrite transferred_snoc; subst c; cbn; lia |].
        split; [apply Forall_app; split; [exact P | constructor; [subst c; cbn; lia | constructor]] |].
        split; [exact A' |]. split; [exact C' |].
        split; [intros X; destruct (Net.t_calls s); discriminate | intros _; lia].
      * cbn [Net.t_total]. lia.
    + assert (count <= 0) by lia.
      eexists. split; [reflexivity |].
      unfold Net.transfer_result, Net.whole_or_nothing.
      cbn [Net.t_total Net.t_count Net.t_world Net.t_calls].
      replace (count <=? 0) with true by (symmetry; apply Z.leb_le; lia).
      split; [exact A' |]. split; [exact C' |].
      split; [| intros Z0; lia].
      right. split; [lia |]. split; [lia |].
      exists (Net.t_calls s), c. split; [reflexivity |].
      split; [reflexivity |]. split; [exact P | lia].
  - apply Z.ltb_ge in B. assert (Tn : Net.t_total s = nbyte) by lia.
    exists s. split; [reflexivity |].
    unfold Net.transfer_result, Net.whole_or_nothing.
    split; [exact A |]. split; [exact C |].
    split.
    + left. split; [| split; [exact P | lia]].
      destruct (Net.t_calls s) as [| c l] eqn:L.
      * destruct (E eq_refl) as [E0 _]. rewrite E0. cbn [Z.leb Z.compare].
        unfold Net.transferred in S_. cbn [fold_right] in S_. lia.
      * assert (0 < Net.t_count s) by (apply N; discriminate).
        replace (Net.t_count s <=? 0) with false by (symmetry; apply Z.leb_gt; lia).
        rewrite Tn. unfold Net.to_ssize_t. rewrite Z.mod_small by lia. lia.
    + intros Z0. destruct (Net.t_calls s) as [| c l] eqn:L.
      * split; [reflexivity | apply E; reflexivity].
      * exfalso. inversion P as [| ? ? P1 P2]; subst.
        unfold Net.transferred in S_. cbn [fold_right] in S_.
        assert (0 <= fold_right (fun c n => Net.call_count c + n) 0 l).
        { clear - P2. induction P2; cbn [fold_right]; lia. }
        lia.
Qed.

Lemma transfer_start_inv : Net.transfer_inv nbyte w0 (Net.transfer_start W w0).
Proof.
  unfold Net.transfer_inv, Net.transfer_start. cbn.
  repeat split; try lia; try constructor. intros X; contradiction.
Qed.

End TransferProofs.



(** ** The raw path with the standard compression *)

Lemma digest_bytes_concat (st : sha_state) :
  length st = 8%nat -> concat (map (be_bytes 4) st) = digest_bytes st.
Proof.
  intro L. explode st L. unfold digest_bytes, word. cbn [map concat nth].
  rewrite app_nil_r. reflexivity.
Qed.

Lemma sha256_ref_of_blocks (msg data : list byte) :
  data = msg ++ [x80] ++ repeat x00 (Z.to_nat ((55 - len msg) mod 64))
             ++ be_bytes 8 (8 * len msg) ->
  sha256_ref msg = digest_bytes (sha256_blocks (Z.to_nat (len data / 64)) data sha256_init).
Proof.
  intro E. unfold sha256_ref. cbv zeta. change (byte_of 128) with x80. rewrite <- E.
  rewrite digest_bytes_concat by (rewrite length_sha256_blocks; reflexivity).
  unfold len. rewrite <- (Nat2Z.inj_div _ 64), Nat2Z.id. reflexivity.
Qed.

Lemma pad_zeros (byte_count : Z) :
  pad_count byte_count - 1 = (55 - byte_count) mod 64.
Proof.
  rewrite pad_count_eq.
  replace (119 - byte_count mod 64) with (55 - byte_count mod 64 + 1 * 64) by lia.
  rewrite Z.mod_add by lia. rewrite Zminus_mod_idemp_r. lia.
Qed.

Lemma double_sha256_is_standard_aux (cfg : config) (input : list byte) (byte_count : Z) :
  0 <= byte_count <= 2 ^ 64 - 73 ->
  byte_count <= len input ->
  double_sha256 SHA256_ref (api := CSHA256_ref_api) cfg input byte_count
  = Done (sha256_ref (sha256_ref (firstn (Z.to_nat byte_count) input))).
Proof.
  intros R L.
  assert (Lm : len (firstn (Z.to_nat byte_count) input) = byte_count)
    by (apply len_firstn; lia).
  destruct cfg; unfold double_sha256.
  - (* the class *)
    assert (H : (if byte_count =? 0 then Done (@CSHA256_new CSHA256_ref_api)
                 else (bs <- read input 0 byte_count ;;
                       Done (@CSHA256_Write CSHA256_ref_api CSHA256_new bs))%run)
                = Done (firstn (Z.to_nat byte_count) input)).
    { destruct (byte_count =? 0) eqn:Z0.
      - apply Z.eqb_eq in Z0. subst byte_count. reflexivity.
      - rewrite read_prefix by lia. reflexivity. }
    rewrite H. cbn [run_bind]. unfold second_hash.
    cbn [CSHA256_Finalize CSHA256_Reset CSHA256_Write CSHA256_ref_api fst snd].
    rewrite read_all by (unfold len; rewrite length_sha256_ref; reflexivity).
    reflexivity.
  - (* the block routine *)
    rewrite first_pass_data_ok by assumption. cbn [run_bind].
    rewrite padded_size_assert. cbn [run_bind].
    set (msg := firstn (Z.to_nat byte_count) input) in *.
    set (data := msg ++ [x80] ++ repeat x00 (Z.to_nat (pad_count byte_count - 1))
                     ++ be_bytes 8 (8 * byte_count)).
    assert (Ld : len data = padded_size byte_count).
    { subst data. rewrite !len_app, len_repeat, len_be_bytes, Lm.
      pose proof (pad_count_spec byte_count) as [B _].
      rewrite padded_size_eq by assumption. change (len [x80]) with 1. lia. }
    assert (L64 : 64 <= len data).
    { rewrite Ld, padded_size_eq by assumption.
      pose proof (pad_count_spec byte_count) as [B M].
      pose proof (padded_size_mod byte_count) as P.
      rewrite padded_size_eq in P by assumption.
      clear - R B P. Z.div_mod_to_equations. lia. }
    rewrite second_pass_data_ok by exact L64. cbn [run_bind].
    rewrite sha256_done_fresh. f_equal.
    unfold SHA256_ref at 2. rewrite <- Ld.
    rewrite <- (sha256_ref_of_blocks msg data)
      by (subst data; rewrite Lm, pad_zeros; reflexivity).
    set (d := sha256_ref msg).
    set (block := d ++ [x80] ++ repeat x00 23 ++ be_bytes 8 256).
    rewrite (sha256_ref_of_blocks d block).
    + unfold SHA256_ref.
      assert (Lb : length block = 64%nat).
      { subst block d. rewrite !length_app, length_sha256_ref. reflexivity. }
      unfold len. rewrite Lb. change (Z.to_nat (Z.of_nat 64 / 64)) with 1%nat.
      change (Z.to_nat 1) with 1%nat. cbn [sha256_blocks].
      assert (E : d ++ [x80] ++ repeat x00 23 ++ be_bytes 8 256 ++ skipn 64 data
                  = block ++ skipn 64 data)
        by (subst block; rewrite <- !app_assoc; reflexivity).
      rewrite E, firstn_app, Lb, Nat.sub_diag, firstn_O, app_nil_r. reflexivity.
    + subst block. unfold len. subst d. rewrite length_sha256_ref. reflexivity.
Qed.

(** X20: linked with the compression of standard SHA-256, or with a class
    that computes standard SHA-256, [double_sha256] stores the SHA-256 of the
    SHA-256 of the first [byte_count] bytes of its input: the padding, the
    block count and the second pass of the raw path are those of the
    standard, for every byte count up to [2^64 - 73]. *)
Theorem double_sha256_is_standard (cfg : config) (input : list byte) (byte_count : Z) :
  0 <= byte_count <= 2 ^ 64 - 73 ->
  byte_count <= len input ->
  double_sha256 SHA256_ref (api := CSHA256_ref_api) cfg input byte_count
  = Done (sha256_ref (sha256_ref (firstn (Z.to_nat byte_count) input))).
Proof. apply double_sha256_is_standard_aux. Qed.

(** X21: with the standard SHA-256, [prepare_message] on a 24-byte header
    area followed by the payload leaves a Bitcoin message: the magic, the
    command padded with zero bytes to 12, the payload length least
    significant byte first, the first four bytes of the double SHA-256 of the
    payload, and the payload itself, whatever the header area held. *)
Theorem prepare_message_standard_frame
        (cfg : config) (host : endianness) (magic : Z) (command hdr payload : list byte) :
  strlen command <= 12 -> len hdr = 24 -> len payload <= 2 ^ 32 - 1 ->
  prepare_message SHA256_ref (api := CSHA256_ref_api) cfg host magic
    command (hdr ++ payload) (len payload)
  = Done (object_bytes host 4 (to_uint32 magic)
          ++ (c_str command ++ repeat x00 (12 - length (c_str command)))
          ++ le_bytes 4 (len payload)
          ++ firstn 4 (sha256_ref (sha256_ref payload))
          ++ payload).
Proof.
  intros Hc Hh Hp.
  assert (S24 : skipn 24 (hdr ++ payload) = payload).
  { unfold len in Hh. rewrite skipn_app.
    replace (24 - length hdr)%nat with 0%nat by lia.
    rewrite skipn_all2 by lia. reflexivity. }
  pose proof (len_nonneg payload) as N.
  rewrite prepare_message_eq;
    [| exact Hc | rewrite len_app; unfold sizeof_header; lia].
  rewrite S24, to_uint64_small by lia.
  rewrite double_sha256_is_standard_aux by lia.
  cbn [run_bind]. unfold len. rewrite Nat2Z.id, firstn_all. reflexivity.
Qed.

(** ** Runs of the further properties *)


(** The byte [2a] between two others. *)
Lemma read_varint_single_byte_witness :
  read_varint storage ([x01] ++ x2a :: [x02]) (storage + len ([x01] ++ x2a :: [x02]))
              (storage + len [x01])
  = (Returned (byte_val x2a), storage + len [x01] + 1).
Proof.
  apply (read_varint_single_byte storage [x01] x2a [x02]).
  - vm_compute. reflexivity.
  - unfold storage. lia.
  - vm_compute. reflexivity.
Defined.

(** The largest value, and a five-byte form with the top bit of its last
    byte set. *)
Lemma read_varint_nine_bytes_witness :
  read_varint storage ([] ++ xff :: xff :: xff :: xff :: xff :: xff :: xff :: xff :: xff :: [])
    (storage + len ([] ++ xff :: xff :: xff :: xff :: xff :: xff :: xff :: xff :: xff :: []))
    (storage + len [])
  = (Returned (le_value [xff; xff; xff; xff; xff; xff; xff; xff]), storage + len [] + 9).
Proof.
  apply (read_varint_nine_bytes storage [] xff xff xff xff xff xff xff xff []).
  - unfold storage. lia.
  - vm_compute. reflexivity.
Defined.

Lemma read_varint_five_bytes_value_witness :
  read_varint storage ([x00] ++ xfe :: x01 :: x02 :: x03 :: x84 :: [x00])
              (storage + len ([x00] ++ xfe :: x01 :: x02 :: x03 :: x84 :: [x00]))
              (storage + len [x00])
  = (Returned (if byte_val x84 <? 0x80
               then le_value [x01; x02; x03; x84]
               else le_value [x01; x02; x03; x84] + (2 ^ 64 - 2 ^ 32)),
     storage + len [x00] + 5).
Proof.
  apply (read_varint_five_bytes_value storage [x00] x01 x02 x03 x84 [x00]).
  - unfold storage. lia.
  - vm_compute. reflexivity.
Defined.

(** [fd 01] and [fe 01 02 03]. *)
Lemma read_varint_truncated_short_forms_witness :
  read_varint storage ([] ++ xfd :: [x01]) (storage + len ([] ++ xfd :: [x01]))
              (storage + len [])
  = (Thrown read_exception, storage + len [] + 1) /\
  read_varint storage ([] ++ xfe :: [x01; x02; x03])
              (storage + len ([] ++ xfe :: [x01; x02; x03])) (storage + len [])
  = (Thrown read_exception, storage + len [] + 1).
Proof.
  apply (read_varint_truncated_short_forms storage [] [x01] [x01; x02; x03]).
  - cbn [length]. lia.
  - cbn [length]. lia.
  - unfold storage. lia.
  - vm_compute. reflexivity.
  - vm_compute. reflexivity.
Defined.

(** 300 and 70000, one after the other, after a byte [ff]. *)
Lemma read_varint_twice_witness :
  let buf := [xff] ++ varint LittleEndian 300 ++ varint LittleEndian 70000 ++ [x00] in
  read_varint storage buf (storage + len buf) (storage + len [xff])
  = (Returned 300, storage + len [xff] + len (varint LittleEndian 300)) /\
  (x <- read_varint storage buf (storage + len buf) ;;
   y <- read_varint storage buf (storage + len buf) ;; ret (x, y))%cursor
    (storage + len [xff])
  = (Returned (300, 70000),
     storage + len [xff] + len (varint LittleEndian 300)
     + len (varint LittleEndian 70000)).
Proof.
  apply (read_varint_twice LittleEndian storage [xff] [x00] 300 70000).
  - lia.
  - lia.
  - unfold storage. lia.
  - vm_compute. reflexivity.
Defined.

(** [2^32 + 5] and 5 have the same encoding, and the same low 32 bits. *)
Lemma varint_injective_witness : to_uint32 (2 ^ 32 + 5) = to_uint32 5.
Proof.
  apply (varint_injective LittleEndian (2 ^ 32 + 5) 5). vm_compute. reflexivity.
Defined.

Lemma WriteBE_stores_big_endian_witness :
  (2 + 8 <= len (repeat xaa 12) ->
   exists buf',
     WriteBE64 (repeat xaa 12) 2 0x0102030405060708 = Done buf' /\
     len buf' = len (repeat xaa 12) /\
     be_value (field 2 8 buf') = to_uint64 0x0102030405060708 /\
     firstn (Z.to_nat 2) buf' = firstn (Z.to_nat 2) (repeat xaa 12) /\
     skipn (Z.to_nat (2 + 8)) buf' = skipn (Z.to_nat (2 + 8)) (repeat xaa 12)) /\
  (2 + 4 <= len (repeat xaa 12) ->
   exists buf',
     WriteBE32 (repeat xaa 12) 2 0x0102030405060708 = Done buf' /\
     len buf' = len (repeat xaa 12) /\
     be_value (field 2 4 buf') = to_uint32 0x0102030405060708 /\
     firstn (Z.to_nat 2) buf' = firstn (Z.to_nat 2) (repeat xaa 12) /\
     skipn (Z.to_nat (2 + 4)) buf' = skipn (Z.to_nat (2 + 4)) (repeat xaa 12)).
Proof.
  apply (WriteBE_stores_big_endian (repeat xaa 12) 2 0x0102030405060708). lia.
Defined.

(** The last word of a 32-byte result, as [sha256_done] stores it. *)
Example WriteBE32_last_word :
  WriteBE32 (vector 32) 28 0x5be0cd19
  = Done (repeat x00 28 ++ [x5b; xe0; xcd; x19]).
Proof. reflexivity. Qed.

Lemma sha256_done_stores_state_witness :
  exists buf',
    sha256_done (repeat xaa 40) 4 sha256_init = Done buf' /\
    len buf' = len (repeat xaa 40) /\
    be_words 8 (field 4 32 buf') = map to_uint32 sha256_init /\
    firstn (Z.to_nat 4) buf' = firstn (Z.to_nat 4) (repeat xaa 40) /\
    skipn (Z.to_nat (4 + 32)) buf' = skipn (Z.to_nat (4 + 32)) (repeat xaa 40).
Proof.
  apply (sha256_done_stores_state (repeat xaa 40) 4 sha256_init).
  - reflexivity.
  - lia.
  - rewrite len_repeat. lia.
Defined.

(** A block header of 80 bytes takes two blocks. *)
Lemma padded_size_overhead_witness :
  9 <= padded_size 80 - 80 <= 72 /\
  padded_size 80 / 64 = (80 + 72) / 64 /\
  (forall m, m mod 64 = 0 -> 80 + 9 <= m -> padded_size 80 <= m).
Proof.
  apply (padded_size_overhead 80). lia.
Defined.

Lemma double_sha256_reads_byte_count_witness :
  double_sha256 SHA256_ref (api := CSHA256_ref_api) RawCompress [x61; x62; x63; x00] 3
  = double_sha256 SHA256_ref (api := CSHA256_ref_api) RawCompress [x61; x62; x63; x64] 3 /\
  double_sha256 SHA256_ref (api := CSHA256_ref_api) RawCompress [x61; x62; x63; x64] 0
  = double_sha256 SHA256_ref (api := CSHA256_ref_api) RawCompress [] 0.
Proof.
  apply (double_sha256_reads_byte_count SHA256_ref (api := CSHA256_ref_api) RawCompress
           [x61; x62; x63; x64] [x61; x62; x63; x00] 3).
  - unfold len. cbn [length]. lia.
  - unfold len. cbn [length]. lia.
  - reflexivity.
Defined.

Lemma double_sha256_two_32_inputs_reads_32_witness :
  double_sha256_two_32_inputs SHA256_ref (api := CSHA256_ref_api) RawCompress
    stack_garbage (digest_a ++ [xff]) digest_b
  = double_sha256 SHA256_ref (api := CSHA256_ref_api) RawCompress
      (firstn 32 (digest_a ++ [xff]) ++ firstn 32 digest_b) 64 /\
  double_sha256_two_32_inputs SHA256_ref (api := CSHA256_ref_api) RawCompress
    stack_garbage (digest_a ++ [xff]) digest_b
  = double_sha256_two_32_inputs SHA256_ref (api := CSHA256_ref_api) RawCompress
      (repeat x00 128) (digest_a ++ [xff]) digest_b.
Proof.
  apply (double_sha256_two_32_inputs_reads_32 SHA256_ref (api := CSHA256_ref_api)
           RawCompress stack_garbage (repeat x00 128) (digest_a ++ [xff]) digest_b).
  - vm_compute. discriminate.
  - vm_compute. discriminate.
  - reflexivity.
  - reflexivity.
Defined.

(** A header at offset 1 of a block of 81 bytes. *)
Lemma getblockhash_hashes_the_header_witness :
  (len (vector 32) <> 32 ->
   getblockhash SHA256_ref (api := CSHA256_ref_api) RawCompress
     (vector 32) (repeat x00 81) 1 = Fault AssertionFailed) /\
  (len (vector 32) = 32 -> 1 + 80 <= len (repeat x00 81) ->
   getblockhash SHA256_ref (api := CSHA256_ref_api) RawCompress (vector 32) (repeat x00 81) 1
   = double_sha256 SHA256_ref (api := CSHA256_ref_api) RawCompress
       (firstn 80 (skipn (Z.to_nat 1) (repeat x00 81))) 80 /\
   exists hash,
     getblockhash SHA256_ref (api := CSHA256_ref_api) RawCompress
       (vector 32) (repeat x00 81) 1 = Done hash /\ len hash = 32) /\
  (len (vector 32) = 32 -> len (repeat x00 81) < 1 + 80 ->
   getblockhash SHA256_ref (api := CSHA256_ref_api) RawCompress
     (vector 32) (repeat x00 81) 1 = Fault OutOfBounds).
Proof.
  apply (getblockhash_hashes_the_header SHA256_ref (api := CSHA256_ref_api) RawCompress
           (vector 32) (repeat x00 81) 1).
  lia.
Defined.

(** The message [ping] over a zeroed header and over a header of [ff]. *)
Lemma prepare_message_overwrites_header_witness :
  prepare_message SHA256_ref (api := CSHA256_ref_api) RawCompress LittleEndian
    BITCOIN_MAGIC_ref ping (repeat xff 24 ++ [x00]) 1
  = prepare_message SHA256_ref (api := CSHA256_ref_api) RawCompress LittleEndian
      BITCOIN_MAGIC_ref ping (buffer_of 1) 1 /\
  (forall out,
     prepare_message SHA256_ref (api := CSHA256_ref_api) RawCompress LittleEndian
       BITCOIN_MAGIC_ref ping (buffer_of 1) 1 = Done out ->
     prepare_message SHA256_ref (api := CSHA256_ref_api) RawCompress LittleEndian
       BITCOIN_MAGIC_ref ping out 1 = Done out).
Proof.
  apply (prepare_message_overwrites_header SHA256_ref (api := CSHA256_ref_api) RawCompress
           LittleEndian BITCOIN_MAGIC_ref ping (buffer_of 1) (repeat xff 24 ++ [x00]) 1).
  - vm_compute. discriminate.
  - vm_compute. discriminate.
  - vm_compute. discriminate.
  - reflexivity.
Defined.

(** Thirteen characters. *)
Lemma prepare_message_cuts_long_command_witness :
  prepare_message SHA256_ref (api := CSHA256_ref_api) RawCompress LittleEndian
    BITCOIN_MAGIC_ref thirteen (buffer_of 0) 0
  = (fullhash <- double_sha256 SHA256_ref (api := CSHA256_ref_api) RawCompress
                   (skipn 24 (buffer_of 0)) (to_uint64 0) ;;
     Done (object_bytes LittleEndian 4 (to_uint32 BITCOIN_MAGIC_ref)
           ++ firstn 12 (c_str thirteen ++ repeat x00 12)
           ++ le_bytes 4 0
           ++ firstn 4 fullhash
           ++ skipn 24 (buffer_of 0)))%run.
Proof.
  apply (prepare_message_cuts_long_command SHA256_ref (api := CSHA256_ref_api) RawCompress
           LittleEndian BITCOIN_MAGIC_ref thirteen (buffer_of 0) 0).
  - vm_compute. discriminate.
  - vm_compute. discriminate.
Defined.

Lemma print_hash_reversed_hex_witness :
  exists out,
    print_hash digest_a = Done out /\
    length out = 64%nat /\
    Forall (fun c => 0x30 <= byte_val c <= 0x39 \/ 0x61 <= byte_val c <= 0x66) out /\
    parse_hex out = rev (firstn 32 digest_a) /\
    forall other, print_hash other = Done out -> firstn 32 other = firstn 32 digest_a.
Proof.
  apply (proj1 (print_hash_reversed_hex digest_a)). vm_compute. discriminate.
Defined.

(** A system that transfers the counts of a script, one per call, cut to the
    size asked for, and 0 when the script is over. *)
Definition scripted (w : list Z) (off n : Z) : Z * list Z :=
  match w with
  | [] => (0, [])
  | c :: w' => (Z.min c n, w')
  end.

Lemma scripted_bounded : Net.bounded scripted.
Proof. intros [| c w] off n H; cbn [scripted fst]; lia. Qed.

(** Ten bytes in pieces of four; and the end of the stream after four
    bytes, where the four bytes read are not reported. *)
Example read_all_run :
  Net.read_all scripted 11 [4; 4; 4] 10
  = Some (10, [],
          [{| Net.call_offset := 0; Net.call_size := 10; Net.call_count := 4 |};
           {| Net.call_offset := 4; Net.call_size := 6; Net.call_count := 4 |};
           {| Net.call_offset := 8; Net.call_size := 2; Net.call_count := 2 |}])
  /\ Net.read_all scripted 11 [4; 0; 4] 10
     = Some (0, [4],
             [{| Net.call_offset := 0; Net.call_size := 10; Net.call_count := 4 |};
              {| Net.call_offset := 4; Net.call_size := 6; Net.call_count := 0 |}])
  /\ Net.send_all scripted 11 [4; -1] 10
     = Some (-1, [],
             [{| Net.call_offset := 0; Net.call_size := 10; Net.call_count := 4 |};
              {| Net.call_offset := 4; Net.call_size := 6; Net.call_count := -1 |}]).
Proof. repeat split. Qed.



Lemma double_sha256_is_standard_witness :
  double_sha256 SHA256_ref (api := CSHA256_ref_api) RawCompress [x61; x62; x63] 3
  = Done (sha256_ref (sha256_ref (firstn (Z.to_nat 3) [x61; x62; x63]))).
Proof.
  apply (double_sha256_is_standard RawCompress [x61; x62; x63] 3).
  - lia.
  - vm_compute. discriminate.
Defined.

Lemma prepare_message_standard_frame_witness :
  prepare_message SHA256_ref (api := CSHA256_ref_api) RawCompress LittleEndian
    BITCOIN_MAGIC_ref ping (repeat xaa 24 ++ [x00]) (len [x00])
  = Done (object_bytes LittleEndian 4 (to_uint32 BITCOIN_MAGIC_ref)
          ++ (c_str ping ++ repeat x00 (12 - length (c_str ping)))
          ++ le_bytes 4 (len [x00])
          ++ firstn 4 (sha256_ref (sha256_ref [x00]))
          ++ [x00]).
Proof.
  apply (prepare_message_standard_frame RawCompress LittleEndian BITCOIN_MAGIC_ref
           ping (repeat xaa 24) [x00]).
  - vm_compute. discriminate.
  - reflexivity.
  - vm_compute. discriminate.
Defined.
